(** * Hanghae/website_new: the utilities of the portfolio page

    A shallow embedding of the pure helpers of the page component
    (the hero/works/contact page): the numeric utilities [clamp01] and
    [mapRangeClamped], the asset resolver [asset] / [assetChain], the
    image fallback of [SmartImg], the works filter [filterByTag], and the
    contact form's [onSubmit] with [buildMailto].

    Numbers are IEEE 754 binary64 values, as JavaScript has them: the
    Standard Library's executable specification [SpecFloat] at precision 53
    and maximal exponent 1024 (round to nearest, ties to even; one NaN). *)

From Stdlib Require Import ZArith NArith Bool List Lia.
From Stdlib Require Import Ascii String.
From Stdlib Require Import SpecFloat.
Import ListNotations.

Set Implicit Arguments.

(* ===================================================================== *)
(** * JavaScript numbers *)
(* ===================================================================== *)

Definition prec : Z := 53.
Definition emax : Z := 1024.

Definition number : Type := spec_float.

Definition NaN : number := S754_nan.
Definition Infinity : number := S754_infinity false.
Definition NegInfinity : number := S754_infinity true.

(** The literal [m * 2^e], rounded to binary64; [num_lit 0 e] is [+0]. *)
Definition num_lit (m e : Z) : number := binary_normalize prec emax m e false.
Definition num_of_Z (z : Z) : number := num_lit z 0.

Definition num_add : number -> number -> number := SFadd prec emax.
Definition num_sub : number -> number -> number := SFsub prec emax.
Definition num_mul : number -> number -> number := SFmul prec emax.
Definition num_div : number -> number -> number := SFdiv prec emax.

(** [a === b] on numbers: NaN equals nothing, [+0 === -0]. *)
Definition strict_eq (a b : number) : bool := SFeqb a b.
Definition num_le (a b : number) : bool := SFleb a b.
Definition num_lt (a b : number) : bool := SFltb a b.

(** [Number.isFinite(v)] for a value that is a number. *)
Definition Number_isFinite (v : number) : bool :=
  match v with
  | S754_zero _ | S754_finite _ _ _ => true
  | S754_infinity _ | S754_nan => false
  end.

Definition Number_isNaN (v : number) : bool :=
  match v with S754_nan => true | _ => false end.

(** [Math.max(a, b)]: NaN if either is NaN; [+0] is larger than [-0]. *)
Definition Math_max (a b : number) : number :=
  match SFcompare a b with
  | None => NaN
  | Some Lt => b
  | Some Gt => a
  | Some Eq => match a with S754_zero true => b | _ => a end
  end.

(** [Math.min(a, b)]: NaN if either is NaN; [-0] is smaller than [+0]. *)
Definition Math_min (a b : number) : number :=
  match SFcompare a b with
  | None => NaN
  | Some Lt => a
  | Some Gt => b
  | Some Eq => match a with S754_zero false => b | _ => a end
  end.

Definition num0 : number := num_of_Z 0.
Definition num1 : number := num_of_Z 1.

(** part_001, l. 545-547:
<<
export function clamp01(v: number) {
  return Number.isFinite(v) ? Math.min(1, Math.max(0, v)) : 0;
}
>> *)
Definition clamp01 (v : number) : number :=
  if Number_isFinite v then Math_min num1 (Math_max num0 v) else num0.

(** part_001, l. 554-558:
<<
export function mapRangeClamped(x, inMin, inMax, outMin, outMax) {
  if (!Number.isFinite(x) || !Number.isFinite(inMin) || !Number.isFinite(inMax)
      || inMin === inMax) return outMin;
  const t = Math.min(1, Math.max(0, (x - inMin) / (inMax - inMin)));
  return outMin + (outMax - outMin) * t;
}
>> *)
Definition mapRange_ratio (x inMin inMax : number) : number :=
  num_div (num_sub x inMin) (num_sub inMax inMin).

Definition mapRange_t (x inMin inMax : number) : number :=
  Math_min num1 (Math_max num0 (mapRange_ratio x inMin inMax)).

Definition mapRangeClamped (x inMin inMax outMin outMax : number) : number :=
  if negb (Number_isFinite x) || negb (Number_isFinite inMin)
     || negb (Number_isFinite inMax) || strict_eq inMin inMax
  then outMin
  else
    let t := mapRange_t x inMin inMax in
    num_add outMin (num_mul (num_sub outMax outMin) t).

(** The closed interval [[0,1]], by the numeric order ([-0] is in it, NaN
    and the infinities are not). *)
Definition in_unit (t : number) : Prop :=
  num_le num0 t = true /\ num_le t num1 = true.

(** [Number.MAX_VALUE], the largest finite binary64 value. *)
Definition MAX_VALUE : number := SFmax_float prec emax.

(* ===================================================================== *)
(** * JavaScript strings *)
(* ===================================================================== *)

(** A string is its sequence of UTF-16 code units, as [startsWith], [trim],
    a regular expression without the [u] flag and [encodeURIComponent] see
    it. *)

Definition code_unit : Type := N.
Definition jsstring : Type := list code_unit.

(** An ASCII literal of the source. *)
Definition lit (s : string) : jsstring := map N_of_ascii (list_ascii_of_string s).
Arguments lit s%_string.

(** The code unit of an ASCII character. *)
Definition ch (a : ascii) : code_unit := N_of_ascii a.
Arguments ch a%_char.

Fixpoint str_eqb (a b : jsstring) : bool :=
  match a, b with
  | [], [] => true
  | x :: a', y :: b' => N.eqb x y && str_eqb a' b'
  | _, _ => false
  end.

(** Truthiness of a string: [!s] holds of the empty string only. *)
Definition is_empty (s : jsstring) : bool :=
  match s with [] => true | _ :: _ => false end.

(** [s.startsWith(p)] *)
Fixpoint startsWith (s p : jsstring) {struct p} : bool :=
  match p, s with
  | [], _ => true
  | y :: p', x :: s' => N.eqb x y && startsWith s' p'
  | _ :: _, [] => false
  end.

(** [s.endsWith(p)] *)
Definition endsWith (s p : jsstring) : bool := startsWith (rev s) (rev p).

(** [lines.join(sep)] *)
Fixpoint join (sep : jsstring) (l : list jsstring) : jsstring :=
  match l with
  | [] => []
  | [x] => x
  | x :: rest => x ++ sep ++ join sep rest
  end.

(** ECMAScript's WhiteSpace and LineTerminator code points: what [trim]
    strips and what the class [\s] matches. *)
Definition is_white_space (c : code_unit) : bool :=
  ((9 <=? c) && (c <=? 13) || (c =? 32) || (c =? 160) || (c =? 5760)
   || (8192 <=? c) && (c <=? 8202) || (c =? 8232) || (c =? 8233)
   || (c =? 8239) || (c =? 8287) || (c =? 12288) || (c =? 65279))%N.

Fixpoint trimStart (s : jsstring) : jsstring :=
  match s with
  | c :: rest => if is_white_space c then trimStart rest else s
  | [] => []
  end.

Definition trimEnd (s : jsstring) : jsstring := rev (trimStart (rev s)).

(** [s.trim()] *)
Definition trim (s : jsstring) : jsstring := trimEnd (trimStart s).

(** [s.replace(/pat/g, rep)] for a pattern that is a non-empty literal: the
    matches are found left to right and do not overlap. [skip] counts the
    code units of the current match still to be passed over. *)
Fixpoint replace_from (pat rep : jsstring) (skip : nat) (s : jsstring) : jsstring :=
  match s with
  | [] => []
  | c :: rest =>
      match skip with
      | S k => replace_from pat rep k rest
      | O =>
          if startsWith s pat
          then rep ++ replace_from pat rep (List.length pat - 1) rest
          else c :: replace_from pat rep 0 rest
      end
  end.

Definition replace_global (pat rep s : jsstring) : jsstring :=
  replace_from pat rep 0 s.

(* --------------------------------------------------------------------- *)
(** ** Regular expressions *)
(* --------------------------------------------------------------------- *)

(** The patterns of the source use literals, classes, [?], [+] and the
    anchors only; such a pattern matches by language membership, decided
    here with derivatives. *)
Inductive regex : Type :=
| REmpty
| REps
| RClass (p : code_unit -> bool)
| RSeq (r1 r2 : regex)
| RAlt (r1 r2 : regex)
| RStar (r : regex).

Definition RChar (c : code_unit) : regex := RClass (N.eqb c).
Definition RPlus (r : regex) : regex := RSeq r (RStar r).
Definition ROpt (r : regex) : regex := RAlt r REps.
Definition RAny : regex := RStar (RClass (fun _ => true)).

Fixpoint RLit (s : jsstring) : regex :=
  match s with
  | [] => REps
  | c :: s' => RSeq (RChar c) (RLit s')
  end.

Fixpoint nullable (r : regex) : bool :=
  match r with
  | REmpty => false
  | REps => true
  | RClass _ => false
  | RSeq r1 r2 => nullable r1 && nullable r2
  | RAlt r1 r2 => nullable r1 || nullable r2
  | RStar _ => true
  end.

Fixpoint deriv (c : code_unit) (r : regex) : regex :=
  match r with
  | REmpty => REmpty
  | REps => REmpty
  | RClass p => if p c then REps else REmpty
  | RSeq r1 r2 =>
      if nullable r1
      then RAlt (RSeq (deriv c r1) r2) (deriv c r2)
      else RSeq (deriv c r1) r2
  | RAlt r1 r2 => RAlt (deriv c r1) (deriv c r2)
  | RStar r1 => RSeq (deriv c r1) (RStar r1)
  end.

(** [re.test(s)] for a pattern anchored at both ends ([^...$]); a pattern
    anchored at the start only is given the tail [RAny]. *)
Fixpoint regex_test (r : regex) (s : jsstring) : bool :=
  match s with
  | [] => nullable r
  | c :: s' => regex_test (deriv c r) s'
  end.

(** The language of a pattern. *)
Inductive Matches : regex -> jsstring -> Prop :=
| MEps : Matches REps []
| MClass p c : p c = true -> Matches (RClass p) [c]
| MSeq r1 r2 s1 s2 : Matches r1 s1 -> Matches r2 s2 -> Matches (RSeq r1 r2) (s1 ++ s2)
| MAltL r1 r2 s : Matches r1 s -> Matches (RAlt r1 r2) s
| MAltR r1 r2 s : Matches r2 s -> Matches (RAlt r1 r2) s
| MStarNil r : Matches (RStar r) []
| MStarCons r s1 s2 : Matches r s1 -> Matches (RStar r) s2 -> Matches (RStar r) (s1 ++ s2).

(* ===================================================================== *)
(** * Asset resolver *)
(* ===================================================================== *)

(** What [asset] can observe of its host: no [document] at all, a DOM
    access that raises (caught by the [catch] clause), or a document with
    the [href] attribute of its [<base>] element ([None] when there is no
    such element or attribute, so that the optional chain yields
    [undefined] or [null]). *)
Inductive document_env : Type :=
| NoDocument
| DocumentThrows
| Document (baseHref : option jsstring).

(** [/^https?:\/\//] *)
Definition http_re : regex :=
  RSeq (RLit (lit "http")) (RSeq (ROpt (RChar (ch "s"))) (RSeq (RLit (lit "://")) RAny)).

(** [x || "/"] on a string or [null]. *)
Definition or_slash (x : option jsstring) : jsstring :=
  match x with
  | Some s => if is_empty s then lit "/" else s
  | None => lit "/"
  end.

(** part_001, l. 33-44:
<<
function asset(p: string) {
  try {
    if (!p) return "";
    if (/^https?:\/\//.test(p) || p.startsWith("/")) return p;
    if (typeof document !== "undefined") {
      const baseHref = document.querySelector("base")?.getAttribute("href") || "/";
      const prefix = baseHref.endsWith("/") ? baseHref : baseHref + "/";
      return `${prefix}media/${p}`;
    }
  } catch {}
  return `/media/${p}`;
}
>> *)
Definition asset (env : document_env) (p : jsstring) : jsstring :=
  if is_empty p then []
  else if regex_test http_re p || startsWith p (lit "/") then p
  else
    match env with
    | Document h =>
        let baseHref := or_slash h in
        let prefix := if endsWith baseHref (lit "/") then baseHref else baseHref ++ lit "/" in
        prefix ++ lit "media/" ++ p
    | NoDocument | DocumentThrows => lit "/media/" ++ p
    end.

(** [new Set(chain)] and [Array.from]: a set keeps its elements in
    insertion order, and adding a present element changes nothing. *)
Definition Set_has (s : list jsstring) (x : jsstring) : bool := existsb (str_eqb x) s.
Definition Set_add (s : list jsstring) (x : jsstring) : list jsstring :=
  if Set_has s x then s else s ++ [x].
Definition Array_from_Set (l : list jsstring) : list jsstring := fold_left Set_add l [].

(** The chain before de-duplication (l. 48-51). *)
Definition assetChain_raw (env : document_env) (p : jsstring) : list jsstring :=
  let a := asset env p in
  let chain := [a] in
  let chain := if negb (startsWith a (lit "/media/")) then chain ++ [lit "/media/" ++ p] else chain in
  chain ++ [lit "/" ++ p].

(** part_001, l. 47-54:
<<
function assetChain(p: string): string[] {
  const a = asset(p);
  const chain = [a];
  if (!a.startsWith("/media/")) chain.push(`/media/${p}`);
  chain.push(`/${p}`);
  return Array.from(new Set(chain));
}
>> *)
Definition assetChain (env : document_env) (p : jsstring) : list jsstring :=
  Array_from_Set (assetChain_raw env p).

(** De-duplication that keeps each entry at its first occurrence, as the
    specification words it: an entry is kept unless it was seen before. *)
Fixpoint keep_first (seen l : list jsstring) : list jsstring :=
  match l with
  | [] => []
  | x :: rest =>
      if Set_has seen x then keep_first seen rest
      else x :: keep_first (x :: seen) rest
  end.

(** The base path the specification speaks of: the document's base path,
    ["/"] by default. *)
Definition base_path (env : document_env) : jsstring :=
  match env with
  | Document h => or_slash h
  | NoDocument | DocumentThrows => lit "/"
  end.

Definition with_trailing_slash (b : jsstring) : jsstring :=
  if endsWith b (lit "/") then b else b ++ lit "/".

(* ===================================================================== *)
(** * SmartImg: the image with fallback sources *)
(* ===================================================================== *)

(** part_001, l. 65-79: the component keeps the index [idx] of the candidate
    on display, initially [0] ([useState(0)]); [src] is [sources[idx]]; the
    [onError] handler is
    [setIdx((i) => (i + 1 < sources.length ? i + 1 : i))]. *)
Definition SmartImg_init : nat := 0.

Definition SmartImg_onError (sources : list jsstring) (i : nat) : nat :=
  if i + 1 <? List.length sources then i + 1 else i.

(** [sources[idx]]; [None] stands for [undefined]. *)
Definition SmartImg_src (sources : list jsstring) (idx : nat) : option jsstring :=
  nth_error sources idx.

(** The indices the component can hold after some number of load errors. *)
Inductive SmartImg_reachable (sources : list jsstring) : nat -> Prop :=
| reach_init : SmartImg_reachable sources SmartImg_init
| reach_error i :
    SmartImg_reachable sources i ->
    SmartImg_reachable sources (SmartImg_onError sources i).

(** The index after [k] load errors. *)
Fixpoint SmartImg_after (sources : list jsstring) (k : nat) : nat :=
  match k with
  | O => SmartImg_init
  | S k' => SmartImg_onError sources (SmartImg_after sources k')
  end.

(* ===================================================================== *)
(** * Works filter *)
(* ===================================================================== *)

Section Works.

(** [T extends { tags: string[] }] *)
Variable T : Type.
Variable tags : T -> list jsstring.

(** [l.includes(x)] on an array of strings. *)
Definition includes (l : list jsstring) (x : jsstring) : bool := existsb (str_eqb x) l.

(** part_001, l. 576-580:
<<
export function uniqueTags(items: { tags: string[] }[]): string[] {
  const s = new Set<string>();
  for (const it of items) for (const t of it.tags) s.add(t);
  return Array.from(s);
}
>> *)
Definition uniqueTags (items : list T) : list jsstring :=
  fold_left (fun s it => fold_left Set_add (tags it) s) items [].

(** part_001, l. 582-585:
<<
export function filterByTag<T extends { tags: string[] }>(items: T[], tag: string): T[] {
  if (!tag || tag === 'All') return items;
  return items.filter((it) => it.tags.includes(tag));
}
>> *)
Definition filterByTag (items : list T) (tag : jsstring) : list T :=
  if is_empty tag || str_eqb tag (lit "All") then items
  else filter (fun it => includes (tags it) tag) items.

(** [r] is [l] with exactly the items satisfying [P] kept, in order. *)
Inductive Selected (P : T -> Prop) : list T -> list T -> Prop :=
| sel_nil : Selected P [] []
| sel_keep x l r : P x -> Selected P l r -> Selected P (x :: l) (x :: r)
| sel_drop x l r : ~ P x -> Selected P l r -> Selected P (x :: l) r.

End Works.

(* ===================================================================== *)
(** * Contact form *)
(* ===================================================================== *)

(** ** [encodeURIComponent] *)

Definition is_alpha (c : code_unit) : bool :=
  ((65 <=? c) && (c <=? 90) || (97 <=? c) && (c <=? 122))%N.

Definition is_digit (c : code_unit) : bool := ((48 <=? c) && (c <=? 57))%N.

(** The marks [- _ . ! ~ * ' ( )]. *)
Definition is_uri_mark (c : code_unit) : bool :=
  ((c =? 45) || (c =? 95) || (c =? 46) || (c =? 33) || (c =? 126)
   || (c =? 42) || (c =? 39) || (c =? 40) || (c =? 41))%N.

(** The code units [encodeURIComponent] leaves as they are. *)
Definition is_unreserved (c : code_unit) : bool :=
  is_alpha c || is_digit c || is_uri_mark c.

Definition is_high_surrogate (c : code_unit) : bool := ((55296 <=? c) && (c <=? 56319))%N.
Definition is_low_surrogate (c : code_unit) : bool := ((56320 <=? c) && (c <=? 57343))%N.

(** The code point of a surrogate pair. *)
Definition pair_code_point (h l : code_unit) : N :=
  (65536 + (h - 55296) * 1024 + (l - 56320))%N.

(** The UTF-8 octets of a code point: [0xxxxxxx], [110xxxxx 10xxxxxx],
    [1110xxxx 10xxxxxx 10xxxxxx] or [11110xxx 10xxxxxx 10xxxxxx 10xxxxxx],
    each field cut out of the code point by a shift and a mask. *)
Definition utf8_octets (cp : N) : list N :=
  (if cp <? 128 then [cp]
   else if cp <? 2048 then [192 + (cp / 64) mod 32; 128 + cp mod 64]
   else if cp <? 65536 then
     [224 + (cp / 4096) mod 16; 128 + (cp / 64) mod 64; 128 + cp mod 64]
   else
     [240 + (cp / 262144) mod 8; 128 + (cp / 4096) mod 64;
      128 + (cp / 64) mod 64; 128 + cp mod 64])%N.

(** An upper-case hexadecimal digit. *)
Definition hex_digit (n : N) : code_unit := (if n <? 10 then 48 + n else 55 + n)%N.

(** [%XX] for one octet. *)
Definition percent_octet (o : N) : jsstring :=
  [ch "%"; hex_digit (o / 16); hex_digit (o mod 16)]%N.

Definition percent_octets (os : list N) : jsstring := flat_map percent_octet os.

(** String.prototype.isWellFormed: no surrogate stands unpaired. *)
Fixpoint isWellFormed (s : jsstring) : bool :=
  match s with
  | [] => true
  | c :: rest =>
      if is_high_surrogate c then
        match rest with
        | d :: rest' => is_low_surrogate d && isWellFormed rest'
        | [] => false
        end
      else negb (is_low_surrogate c) && isWellFormed rest
  end.

(** [encodeURIComponent(s)], after ECMAScript's Encode: an unreserved code
    unit is copied; any other code point is written as the [%XX] of its
    UTF-8 octets; an unpaired surrogate raises URIError ([None]). *)
Fixpoint encodeURIComponent (s : jsstring) : option jsstring :=
  match s with
  | [] => Some []
  | c :: rest =>
      if is_unreserved c then option_map (cons c) (encodeURIComponent rest)
      else if is_high_surrogate c then
        match rest with
        | d :: rest' =>
            if is_low_surrogate d
            then option_map (app (percent_octets (utf8_octets (pair_code_point c d))))
                            (encodeURIComponent rest')
            else None
        | [] => None
        end
      else if is_low_surrogate c then None
      else option_map (app (percent_octets (utf8_octets c))) (encodeURIComponent rest)
  end.

(** part_001, l. 569-572:
<<
export function buildMailto(to: string, subject: string, body: string) {
  const enc = (s: string) => encodeURIComponent(s).replace(/%20/g, "+");
  return `mailto:${to}?subject=${enc(subject)}&body=${enc(body)}`;
}
>>
    [None] stands for the URIError of [encodeURIComponent]. *)
Definition enc (s : jsstring) : option jsstring :=
  option_map (replace_global (lit "%20") (lit "+")) (encodeURIComponent s).

Definition buildMailto (to subject body : jsstring) : option jsstring :=
  match enc subject with
  | None => None
  | Some es =>
      match enc body with
      | None => None
      | Some eb => Some (lit "mailto:" ++ to ++ lit "?subject=" ++ es ++ lit "&body=" ++ eb)
      end
  end.

(** ** The form *)

(** The state of [ContactForm] (l. 430-435); [err] is set by [onSubmit]. *)
Record ContactForm : Type := {
  name : jsstring;
  email : jsstring;
  budget : jsstring;
  timeline : jsstring;
  message : jsstring;
  agree : bool
}.

(** The three messages [onSubmit] can put in [err], in the order of their
    guards (l. 444, 448, 452), under the names the specification gives
    them. *)
Inductive form_error : Type :=
| MissingField
| InvalidEmail
| ConsentRequired.

(** [/^[^\s@]+@[^\s@]+\.[^\s@]+$/] *)
Definition not_space_or_at (c : code_unit) : bool :=
  negb (is_white_space c || N.eqb c (ch "@")).

Definition email_re : regex :=
  RSeq (RPlus (RClass not_space_or_at))
    (RSeq (RChar (ch "@"))
       (RSeq (RPlus (RClass not_space_or_at))
          (RSeq (RChar (ch "."))
             (RPlus (RClass not_space_or_at))))).

(** The guards of [onSubmit] (l. 443-454): the first one that fires sets
    [err] and returns. *)
Definition validate (f : ContactForm) : option form_error :=
  if is_empty (trim (name f)) || is_empty (trim (email f)) || is_empty (trim (message f))
  then Some MissingField
  else if negb (regex_test email_re (email f)) then Some InvalidEmail
  else if negb (agree f) then Some ConsentRequired
  else None.

Definition to_address : jsstring := lit "su96hwang@gmail.com".

Definition LF : jsstring := [10%N].

(** [xs.filter(Boolean)] on strings and [null]: [null] and the empty string
    are dropped. *)
Definition filter_Boolean (xs : list (option jsstring)) : list jsstring :=
  flat_map (fun x => match x with
                     | Some s => if is_empty s then [] else [s]
                     | None => []
                     end) xs.

(** [cond ? s : null] *)
Definition if_truthy (cond s : jsstring) : option jsstring :=
  if is_empty cond then None else Some s.

Definition mail_subject (f : ContactForm) : jsstring :=
  lit "[Portfolio Inquiry] " ++ name f.

Definition mail_lines (f : ContactForm) : list jsstring :=
  filter_Boolean
    [ Some (lit "Name: " ++ name f);
      Some (lit "Email: " ++ email f);
      if_truthy (budget f) (lit "Budget: " ++ budget f);
      if_truthy (timeline f) (lit "Timeline: " ++ timeline f);
      Some [];
      Some (message f) ].

Definition mail_body (f : ContactForm) : jsstring := join LF (mail_lines f).

(** What a submission does: show an error, hand the [mailto:] address to
    [window.location.href], or let the URIError of [buildMailto] escape (it
    is called outside any [try]). The copy to the clipboard that follows
    the navigation is best effort and leaves no trace here. *)
Inductive submit_outcome : Type :=
| ShowError (e : form_error)
| Navigate (href : jsstring)
| ThrowsURIError.

(** part_001, l. 440-470 (the three messages are abridged):
<<
  function onSubmit(e: React.FormEvent) {
    e.preventDefault();
    setErr(null);
    if (!name.trim() || !email.trim() || !message.trim()) { setErr(...); return; }
    if (!/^[^\s@]+@[^\s@]+\.[^\s@]+$/.test(email)) { setErr(...); return; }
    if (!agree) { setErr(...); return; }

    const subject = `[Portfolio Inquiry] ${name}`;
    const lines = [
      `Name: ${name}`,
      `Email: ${email}`,
      budget ? `Budget: ${budget}` : null,
      timeline ? `Timeline: ${timeline}` : null,
      "",
      message,
    ].filter(Boolean) as string[];

    const href = buildMailto(to, subject, lines.join("\n"));

    try { window.location.href = href; } catch {}
    try { navigator.clipboard?.writeText(...); } catch {}
  }
>> *)
Definition onSubmit (f : ContactForm) : submit_outcome :=
  match validate f with
  | Some e => ShowError e
  | None =>
      match buildMailto to_address (mail_subject f) (mail_body f) with
      | Some href => Navigate href
      | None => ThrowsURIError
      end
  end.

(* ===================================================================== *)
(** * Other parts of the page *)
(* ===================================================================== *)

(** ** Media types *)

Section MimeFrom.

(** [String.prototype.toLowerCase], taken as given. *)
Variable toLowerCase : jsstring -> jsstring.

(** part_001, l. 56-63:
<<
function mimeFrom(url: string): string | undefined {
  const u = url.toLowerCase();
  if (u.endsWith(".webm")) return "video/webm";
  if (u.endsWith(".mp4")) return "video/mp4";
  if (u.endsWith(".jpg") || u.endsWith(".jpeg")) return "image/jpeg";
  if (u.endsWith(".png")) return "image/png";
  return undefined;
}
>> *)
Definition mimeFrom (url : jsstring) : option jsstring :=
  let u := toLowerCase url in
  if endsWith u (lit ".webm") then Some (lit "video/webm")
  else if endsWith u (lit ".mp4") then Some (lit "video/mp4")
  else if endsWith u (lit ".jpg") || endsWith u (lit ".jpeg") then Some (lit "image/jpeg")
  else if endsWith u (lit ".png") then Some (lit "image/png")
  else None.

End MimeFrom.

(** On a string of ASCII code units [toLowerCase] maps [A]-[Z] to
    [a]-[z] and leaves the rest. *)
Definition is_ascii (s : jsstring) : Prop := Forall (fun c => c < 128)%N s.

Definition ascii_lower (c : code_unit) : code_unit :=
  (if (65 <=? c) && (c <=? 90) then c + 32 else c)%N.

Definition lowers_ascii (toLowerCase : jsstring -> jsstring) : Prop :=
  forall s, is_ascii s -> toLowerCase s = map ascii_lower s.

(** ** Blur filter *)

Section FormatBlur.

(** The conversion of a number to a string in a template literal, taken
    as given. *)
Variable Number_toString : number -> jsstring.

(** part_001, l. 549-552:
<<
export function formatBlur(px: number) {
  const v = Number.isFinite(px) ? Math.max(0, px) : 0;
  return `blur(${v}px)`;
}
>> *)
Definition formatBlur_v (px : number) : number :=
  if Number_isFinite px then Math_max num0 px else num0.

Definition formatBlur (px : number) : jsstring :=
  lit "blur(" ++ Number_toString (formatBlur_v px) ++ lit "px)".

End FormatBlur.

(** ** Logo overlay *)

(** part_001, l. 560-566; [None] is [undefined]:
<<
export function isLogoOverlayEnabled(src?: string) {
  return Boolean(src && typeof src === 'string' && src.length > 0);
}
export function shouldUseBlend(logoWebmAlphaSrc?: string) {
  return !isLogoOverlayEnabled(logoWebmAlphaSrc);
}
>> *)
Definition isLogoOverlayEnabled (src : option jsstring) : bool :=
  match src with
  | Some s => negb (is_empty s) && (0 <? List.length s)
  | None => false
  end.

Definition shouldUseBlend (logoWebmAlphaSrc : option jsstring) : bool :=
  negb (isLogoOverlayEnabled logoWebmAlphaSrc).

(** ** Failed assets *)

(** part_001, l. 116-117: the updater of [markError],
    [(s) => (s.includes(url) ? s : [...s, url])], on the list
    [assetErrors], initially empty. *)
Definition markError (s : list jsstring) (url : jsstring) : list jsstring :=
  if includes s url then s else s ++ [url].

Definition assetErrors_init : list jsstring := [].

(** The list after the given load failures, in order. *)
Definition assetErrors_after (urls : list jsstring) : list jsstring :=
  fold_left markError urls assetErrors_init.

(** ** The works on display *)

Section FilteredWorks.

Variable T : Type.
Variable tags : T -> list jsstring.

(** part_001, l. 182-185:
<<
  const filteredWorks = useMemo(
    () => (activeTag === "All" ? WORKS : WORKS.filter(w => w.tags.includes(activeTag))),
    [activeTag]
  );
>> *)
Definition filteredWorks (WORKS : list T) (activeTag : jsstring) : list T :=
  if str_eqb activeTag (lit "All") then WORKS
  else filter (fun w => includes (tags w) activeTag) WORKS.

End FilteredWorks.

(** ** The sources of a work's thumbnail *)

(** The class [.] of a pattern without the [s] flag: anything but a line
    terminator. *)
Definition is_line_terminator (c : code_unit) : bool :=
  ((c =? 10) || (c =? 13) || (c =? 8232) || (c =? 8233))%N.

Definition RDot : regex := RClass (fun c => negb (is_line_terminator c)).

(** The length of the longest prefix of [s] that the pattern matches. *)
Fixpoint longest_match (r : regex) (s : jsstring) : option nat :=
  match s with
  | [] => if nullable r then Some 0 else None
  | c :: s' =>
      match longest_match (deriv c r) s' with
      | Some n => Some (S n)
      | None => if nullable r then Some 0 else None
      end
  end.

(** [s.replace(/^r/, rep)] for a pattern anchored at the start whose match
    is its longest one: so it is for a literal, and for a greedy [.*]
    followed by a literal, which gives back as little as it must. *)
Definition replace_prefix (r : regex) (rep s : jsstring) : jsstring :=
  match longest_match r s with
  | Some n => rep ++ skipn n s
  | None => s
  end.

(** [/^.*media\//] *)
Definition up_to_media_re : regex := RSeq (RStar RDot) (RLit (lit "media/")).

(** [/^\//] *)
Definition leading_slash_re : regex := RChar (ch "/").

(** part_001, l. 376: [w.thumb.replace(/^.*media\//, '').replace(/^\//, '')] *)
Definition thumb_name (thumb : jsstring) : jsstring :=
  replace_prefix leading_slash_re [] (replace_prefix up_to_media_re [] thumb).

(** part_001, l. 172-176 and 375-376: a work's [thumb] is [asset(name)],
    and its image is given
    [assetChain(w.thumb.replace(/^.*media\//, '').replace(/^\//, ''))]. *)
Definition work_sources (env : document_env) (name : jsstring) : list jsstring :=
  assetChain env (thumb_name (asset env name)).

(* ===================================================================== *)
(** * Words of the specification *)
(* ===================================================================== *)

(** [t] is [r] clamped into [[0,1]]: it lies in the interval, is [0] below
    it, [1] above it, and [r] inside it (equalities are [===]). *)
Definition clamped_into_unit (r t : number) : Prop :=
  in_unit t
  /\ (num_lt r num0 = true -> strict_eq t num0 = true)
  /\ (num_lt num1 r = true -> strict_eq t num1 = true)
  /\ (in_unit r -> strict_eq t r = true).

(** The linear map of the specification, at the [t] the code computes. *)
Definition linear_at (outMin outMax t : number) : number :=
  num_add outMin (num_mul (num_sub outMax outMin) t).

(** A required field that is empty after trimming. *)
Definition missing_field (f : ContactForm) : Prop :=
  trim (name f) = [] \/ trim (email f) = [] \/ trim (message f) = [].

(** A non-empty run of code units that are neither white space nor [@]. *)
Definition plain_run (s : jsstring) : Prop :=
  s <> [] /\ Forall (fun c => not_space_or_at c = true) s.

(** The shape [local@domain.tld]. *)
Definition email_shape (e : jsstring) : Prop :=
  exists local domain tld,
    e = local ++ [ch "@"] ++ domain ++ [ch "."] ++ tld
    /\ plain_run local /\ plain_run domain /\ plain_run tld.

(** ** Reading the address back *)

(** The specification speaks of the decoded body of the address. The page
    itself decodes nothing; the standard readings of a query string are
    written out here: the fields of the query, percent-decoding to octets,
    the [+]-for-space convention, and UTF-8. *)

(** The text before the first [sep], and the text after it if [sep]
    occurs. *)
Fixpoint cut_at (sep : code_unit) (s : jsstring) : jsstring * option jsstring :=
  match s with
  | [] => ([], None)
  | c :: rest =>
      if N.eqb c sep then ([], Some rest)
      else let (a, b) := cut_at sep rest in (c :: a, b)
  end.

(** [s.split(sep)] for a one-unit separator. *)
Fixpoint split_on (sep : code_unit) (s : jsstring) : list jsstring :=
  match s with
  | [] => [[]]
  | c :: rest =>
      if N.eqb c sep then [] :: split_on sep rest
      else
        match split_on sep rest with
        | h :: t => (c :: h) :: t
        | [] => [[c]]
        end
  end.

(** The raw value of the query parameter [key] of an address: the query
    is what follows the first [?], its fields are separated by [&], and a
    field is [key=value]. *)
Definition query_param (key href : jsstring) : option jsstring :=
  match snd (cut_at (ch "?") href) with
  | None => None
  | Some q =>
      hd_error
        (flat_map (fun kv => match cut_at (ch "=") kv with
                             | (k, Some v) => if str_eqb k key then [v] else []
                             | (_, None) => []
                             end)
                  (split_on (ch "&") q))
  end.

Definition hex_value (c : code_unit) : option N :=
  (if (48 <=? c) && (c <=? 57) then Some (c - 48)
   else if (65 <=? c) && (c <=? 70) then Some (c - 55)
   else if (97 <=? c) && (c <=? 102) then Some (c - 87)
   else None)%N.

Definition hex_pair (h1 h2 : code_unit) : option N :=
  match hex_value h1, hex_value h2 with
  | Some a, Some b => Some (16 * a + b)%N
  | _, _ => None
  end.

(** Percent-decoding, to octets: [%XX] with two hexadecimal digits is the
    octet [XX]; every other code unit stands for itself. *)
Fixpoint percent_decode (s : jsstring) : list N :=
  match s with
  | [] => []
  | c :: rest =>
      match rest with
      | h1 :: h2 :: rest' =>
          match (if N.eqb c (ch "%") then hex_pair h1 h2 else None) with
          | Some o => o :: percent_decode rest'
          | None => c :: percent_decode rest
          end
      | _ => c :: percent_decode rest
      end
  end.

(** The query-string convention the encoder follows: a [+] stands for a
    space. *)
Definition plus_as_space (s : jsstring) : jsstring :=
  map (fun c => if N.eqb c (ch "+") then ch " " else c) s.

(** The UTF-8 octets of a string (an unpaired surrogate is written as
    U+FFFD, as [TextEncoder] does). *)
Fixpoint utf8_encode (s : jsstring) : list N :=
  match s with
  | [] => []
  | c :: rest =>
      if is_high_surrogate c then
        match rest with
        | d :: rest' =>
            if is_low_surrogate d
            then utf8_octets (pair_code_point c d) ++ utf8_encode rest'
            else utf8_octets 65533 ++ utf8_encode rest
        | [] => utf8_octets 65533
        end
      else if is_low_surrogate c then utf8_octets 65533 ++ utf8_encode rest
      else utf8_octets c ++ utf8_encode rest
  end.

(** [needle] occurs in [hay] as a contiguous run. *)
Definition occurs_in (needle hay : list N) : Prop :=
  exists pre post, hay = pre ++ needle ++ post.

Fixpoint occurs_in_b (needle hay : list N) : bool :=
  startsWith hay needle
  || match hay with
     | [] => false
     | _ :: rest => occurs_in_b needle rest
     end.

(** No field of the form holds an unpaired surrogate. *)
Definition form_well_formed (f : ContactForm) : bool :=
  isWellFormed (name f) && isWellFormed (email f) && isWellFormed (budget f)
  && isWellFormed (timeline f) && isWellFormed (message f).

(** A submission hands over a [mailto:] address whose [body] parameter,
    read back with [decode], holds the text of the message. *)
Definition body_holds_message (decode : jsstring -> list N) (f : ContactForm) : Prop :=
  exists href eb,
    onSubmit f = Navigate href
    /\ startsWith href (lit "mailto:") = true
    /\ query_param (lit "body") href = Some eb
    /\ occurs_in (utf8_encode (message f)) (decode eb).

(** What [enc] writes for one octet: [+] for a space, [%XX] otherwise. *)
Definition enc_octet (o : N) : jsstring :=
  if N.eqb o 32 then lit "+" else percent_octet o.

(** The output of [encodeURIComponent], unit by unit. *)
Inductive Encoded : jsstring -> jsstring -> Prop :=
| enc_nil : Encoded [] []
| enc_plain c s e :
    is_unreserved c = true -> Encoded s e -> Encoded (c :: s) (c :: e)
| enc_unit c s e :
    is_unreserved c = false -> is_high_surrogate c = false ->
    is_low_surrogate c = false -> Encoded s e ->
    Encoded (c :: s) (percent_octets (utf8_octets c) ++ e)
| enc_pair h l s e :
    is_unreserved h = false -> is_high_surrogate h = true ->
    is_low_surrogate l = true -> Encoded s e ->
    Encoded (h :: l :: s) (percent_octets (utf8_octets (pair_code_point h l)) ++ e).

(** The unit-by-unit form of what [enc] returns. *)
Inductive Enc : jsstring -> jsstring -> Prop :=
| Enc_nil : Enc [] []
| Enc_plain c s e :
    is_unreserved c = true -> Enc s e -> Enc (c :: s) (c :: e)
| Enc_unit c s e :
    is_unreserved c = false -> is_high_surrogate c = false ->
    is_low_surrogate c = false -> Enc s e ->
    Enc (c :: s) (flat_map enc_octet (utf8_octets c) ++ e)
| Enc_pair h l s e :
    is_high_surrogate h = true -> is_low_surrogate l = true -> Enc s e ->
    Enc (h :: l :: s) (flat_map enc_octet (utf8_octets (pair_code_point h l)) ++ e).

(** ** Proof automation *)

(** Comparisons on code units, as propositions for [lia]. *)
Ltac units_lia :=
  unfold is_unreserved, is_alpha, is_digit, is_uri_mark, is_high_surrogate,
    is_low_surrogate, ch in *;
  cbn [N_of_ascii N_of_digits] in *;
  rewrite ?orb_true_iff, ?andb_true_iff, ?negb_true_iff, ?orb_false_iff,
    ?andb_false_iff, ?negb_false_iff, ?N.leb_le, ?N.leb_gt, ?N.eqb_eq, ?N.eqb_neq,
    ?N.ltb_lt, ?N.ltb_ge in *;
  lia.

(** Linear arithmetic with division and remainder by constants. *)
Ltac divmod_lia := zify; Z.to_euclidean_division_equations; lia.

(* --------------------------------------------------------------------- *)
(** ** Facts about the numeric order *)
(* --------------------------------------------------------------------- *)

Lemma SFcompare_antisym (a b : number) (c : comparison) :
  SFcompare a b = Some c -> SFcompare b a = Some (CompOpp c).
Proof.
  destruct a as [sa|sa| |sa ma ea], b as [sb|sb| |sb mb eb]; simpl;
    try discriminate;
    try (intros [= <-]; destruct sa; try destruct sb; reflexivity);
    try (intros [= <-]; destruct sb; reflexivity).
  intros [= <-]. f_equal.
  rewrite (Z.compare_antisym ea eb).
  pose proof (Pos.compare_cont_antisym ma mb Eq) as Hm. simpl in Hm.
  destruct sa, sb; simpl; try reflexivity;
    destruct (ea ?= eb)%Z; simpl; try reflexivity.
  - rewrite <- Hm. reflexivity.
  - rewrite <- Hm. destruct (Pos.compare_cont Eq ma mb); reflexivity.
Qed.

Lemma SFcompare_refl_finite s m e :
  SFcompare (S754_finite s m e) (S754_finite s m e) = Some Eq.
Proof.
  simpl. rewrite Z.compare_refl, Pos.compare_cont_refl.
  destruct s; reflexivity.
Qed.

Lemma num_le_antisym_false (a b : number) :
  SFcompare a b = Some Lt -> num_le b a = false.
Proof.
  intros H. unfold num_le, SFleb. rewrite (SFcompare_antisym _ _ H). reflexivity.
Qed.

(** The clamp idiom [Math.min(1, Math.max(0, r))] lands in [[0,1]] for every
    [r] that is not NaN. *)
Lemma clamp_idiom_in_unit (r : number) :
  Number_isNaN r = false -> in_unit (Math_min num1 (Math_max num0 r)).
Proof.
  intros Hn. destruct r as [s|s| |s m e]; try discriminate.
  - destruct s; vm_compute; split; reflexivity.
  - destruct s; vm_compute; split; reflexivity.
  - destruct s.
    + vm_compute; split; reflexivity.
    + assert (Hmax : Math_max num0 (S754_finite false m e) = S754_finite false m e)
        by reflexivity.
      rewrite Hmax. unfold Math_min.
      destruct (SFcompare num1 (S754_finite false m e)) as [[| |]|] eqn:Hc.
      * change num1 with (S754_finite false 4503599627370496 (-52)).
        cbv iota. vm_compute. split; reflexivity.
      * vm_compute. split; reflexivity.
      * split; [reflexivity|].
        unfold num_le, SFleb. rewrite (SFcompare_antisym _ _ Hc). reflexivity.
      * discriminate.
Qed.

(** On a value already in [[0,1]] the idiom returns it, up to [===]
    (it returns [+0] on [-0]). *)
Lemma clamp_idiom_fixes_unit (r : number) :
  in_unit r -> strict_eq (Math_min num1 (Math_max num0 r)) r = true.
Proof.
  intros [H0 H1]. destruct r as [s|s| |s m e]; try discriminate.
  - destruct s; reflexivity.
  - destruct s; discriminate.
  - destruct s; [discriminate|].
    assert (Hmax : Math_max num0 (S754_finite false m e) = S754_finite false m e)
      by reflexivity.
    rewrite Hmax. unfold Math_min, strict_eq, SFeqb.
    destruct (SFcompare num1 (S754_finite false m e)) as [[| |]|] eqn:Hc.
    + change num1 with (S754_finite false 4503599627370496 (-52)) in *.
      cbv iota. rewrite Hc. reflexivity.
    + rewrite (num_le_antisym_false _ _ Hc) in H1. discriminate.
    + rewrite SFcompare_refl_finite. reflexivity.
    + discriminate.
Qed.

Lemma clamp_idiom_below (r : number) :
  num_lt r num0 = true -> strict_eq (Math_min num1 (Math_max num0 r)) num0 = true.
Proof.
  destruct r as [s|s| |s m e]; try discriminate.
  - destruct s; [reflexivity | discriminate].
  - destruct s; [reflexivity | discriminate].
Qed.

Lemma clamp_idiom_above (r : number) :
  num_lt num1 r = true -> strict_eq (Math_min num1 (Math_max num0 r)) num1 = true.
Proof.
  destruct r as [s|s| |s m e]; try discriminate.
  - destruct s; [discriminate | reflexivity].
  - destruct s; [discriminate|].
    unfold num_lt, SFltb. intros H.
    assert (Hmax : Math_max num0 (S754_finite false m e) = S754_finite false m e)
      by reflexivity.
    rewrite Hmax. unfold Math_min.
    destruct (SFcompare num1 (S754_finite false m e)) as [[| |]|]; try discriminate.
    reflexivity.
Qed.

Lemma clamp_idiom_clamps (r : number) :
  Number_isNaN r = false -> clamped_into_unit r (Math_min num1 (Math_max num0 r)).
Proof.
  intros Hn. repeat split.
  - apply clamp_idiom_in_unit; assumption.
  - apply clamp_idiom_in_unit; assumption.
  - apply clamp_idiom_below.
  - apply clamp_idiom_above.
  - apply clamp_idiom_fixes_unit.
Qed.

Lemma SFcompare_Eq_finite m1 e1 m2 e2 :
  SFcompare (S754_finite false m1 e1) (S754_finite false m2 e2) = Some Eq ->
  e1 = e2 /\ m1 = m2.
Proof.
  simpl. destruct (e1 ?= e2)%Z eqn:He; try discriminate.
  intros [= Hc]. split.
  - apply Z.compare_eq; assumption.
  - apply (Pos.compare_eq m1 m2); assumption.
Qed.

(** On a value of [[0,1]] other than [-0] the idiom returns the value
    itself. *)
Lemma clamp_idiom_same (r : number) :
  in_unit r -> r <> S754_zero true -> Math_min num1 (Math_max num0 r) = r.
Proof.
  intros [H0 H1] Hz. destruct r as [s|s| |s m e]; try discriminate.
  - destruct s; [contradiction | reflexivity].
  - destruct s; discriminate.
  - destruct s; [discriminate|].
    assert (Hmax : Math_max num0 (S754_finite false m e) = S754_finite false m e)
      by reflexivity.
    rewrite Hmax. unfold Math_min.
    destruct (SFcompare num1 (S754_finite false m e)) as [[| |]|] eqn:Hc.
    + change num1 with (S754_finite false 4503599627370496 (-52)) in *.
      cbv iota. apply SFcompare_Eq_finite in Hc. destruct Hc as [<- <-].
      reflexivity.
    + rewrite (num_le_antisym_false _ _ Hc) in H1. discriminate.
    + reflexivity.
    + discriminate.
Qed.

(* ===================================================================== *)
(** * Numeric utilities: specification *)
(* ===================================================================== *)

(** C9. [clamp01] is total: on a finite [v] the result lies in [[0,1]], and
    when [v] is already in [[0,1]] the result is [v] (it [===] [v], and it is
    the very same value unless [v] is [-0], which becomes [+0]); on NaN,
    [+Infinity] and [-Infinity] the result is [0]. *)
Theorem clamp01_total (v : number) :
  (Number_isFinite v = true ->
     in_unit (clamp01 v)
     /\ (in_unit v ->
           strict_eq (clamp01 v) v = true
           /\ (v <> S754_zero true -> clamp01 v = v)))
  /\ (Number_isFinite v = false -> clamp01 v = num0)
  /\ clamp01 NaN = num0 /\ clamp01 Infinity = num0 /\ clamp01 NegInfinity = num0.
Proof.
  split; [|split; [|repeat split]].
  - intros Hf. unfold clamp01. rewrite Hf. split.
    + apply clamp_idiom_in_unit. destruct v; try reflexivity; discriminate.
    + intros Hu. split.
      * apply clamp_idiom_fixes_unit; assumption.
      * intros Hz. apply clamp_idiom_same; assumption.
  - intros Hf. unfold clamp01. rewrite Hf. reflexivity.
Qed.

Lemma clamp01_total_witness :
  in_unit (clamp01 (num_of_Z 7))
  /\ clamp01 (num_lit 1 (-1)) = num_lit 1 (-1)
  /\ clamp01 NegInfinity = num0.
Proof.
  split; [|split].
  - apply (proj1 (clamp01_total (num_of_Z 7))). reflexivity.
  - apply (proj1 (clamp01_total (num_lit 1 (-1)))).
    + reflexivity.
    + split; reflexivity.
    + discriminate.
  - apply (proj1 (proj2 (clamp01_total NegInfinity))). reflexivity.
Defined.

(** The guard of [mapRangeClamped] does not fire on finite [x], [inMin],
    [inMax] with [inMin !== inMax]. *)
Lemma mapRangeClamped_proper x inMin inMax outMin outMax :
  Number_isFinite x = true -> Number_isFinite inMin = true ->
  Number_isFinite inMax = true -> strict_eq inMin inMax = false ->
  mapRangeClamped x inMin inMax outMin outMax
  = linear_at outMin outMax (mapRange_t x inMin inMax).
Proof.
  intros Hx Hlo Hhi Hne. unfold mapRangeClamped.
  rewrite Hx, Hlo, Hhi, Hne. reflexivity.
Qed.

(** C1, as amended. For finite [x], [inMin], [inMax] with [inMin !== inMax]
    whose quotient [(x - inMin) / (inMax - inMin)] is a number (not NaN),
    and for any [outMin], [outMax], the result is
    [outMin + (outMax - outMin) * t] where [t] is that quotient clamped
    into [[0,1]]. In particular the four values of the specification:
    [mapRangeClamped(0.5, 0, 1, 10, 20) = 15],
    [mapRangeClamped(-1, 0, 1, 10, 20) = 10],
    [mapRangeClamped(2, 0, 1, 10, 20) = 20] and
    [mapRangeClamped(0.5, 1, 1, 10, 20) = 10]. *)
Theorem mapRangeClamped_linear :
  (forall x inMin inMax outMin outMax : number,
      Number_isFinite x = true -> Number_isFinite inMin = true ->
      Number_isFinite inMax = true -> strict_eq inMin inMax = false ->
      Number_isNaN (mapRange_ratio x inMin inMax) = false ->
      clamped_into_unit (mapRange_ratio x inMin inMax) (mapRange_t x inMin inMax)
      /\ mapRangeClamped x inMin inMax outMin outMax
         = num_add outMin (num_mul (num_sub outMax outMin) (mapRange_t x inMin inMax)))
  /\ mapRangeClamped (num_lit 1 (-1)) (num_of_Z 0) (num_of_Z 1) (num_of_Z 10) (num_of_Z 20)
     = num_of_Z 15
  /\ mapRangeClamped (num_of_Z (-1)) (num_of_Z 0) (num_of_Z 1) (num_of_Z 10) (num_of_Z 20)
     = num_of_Z 10
  /\ mapRangeClamped (num_of_Z 2) (num_of_Z 0) (num_of_Z 1) (num_of_Z 10) (num_of_Z 20)
     = num_of_Z 20
  /\ mapRangeClamped (num_lit 1 (-1)) (num_of_Z 1) (num_of_Z 1) (num_of_Z 10) (num_of_Z 20)
     = num_of_Z 10.
Proof.
  split; [|repeat split; vm_compute; reflexivity].
  intros x inMin inMax outMin outMax Hx Hlo Hhi Hne Hnan. split.
  - apply clamp_idiom_clamps; assumption.
  - apply mapRangeClamped_proper; assumption.
Qed.

Lemma mapRangeClamped_linear_witness :
  clamped_into_unit (mapRange_ratio (num_of_Z 1) (num_of_Z 0) (num_of_Z 4))
                    (mapRange_t (num_of_Z 1) (num_of_Z 0) (num_of_Z 4))
  /\ mapRangeClamped (num_of_Z 1) (num_of_Z 0) (num_of_Z 4) (num_of_Z 10) (num_of_Z 20)
     = num_add (num_of_Z 10)
         (num_mul (num_sub (num_of_Z 20) (num_of_Z 10))
            (mapRange_t (num_of_Z 1) (num_of_Z 0) (num_of_Z 4))).
Proof.
  apply (proj1 mapRangeClamped_linear); reflexivity.
Defined.

(** C1 as stated fails when both differences overflow: with
    [x = inMax = Number.MAX_VALUE] and [inMin = -Number.MAX_VALUE] all five
    arguments are finite and [inMin !== inMax], the quotient is
    [Infinity / Infinity], so [t] is NaN, which is not in [[0,1]], and the
    result is NaN. *)
Lemma mapRangeClamped_overflow_counterexample :
  Number_isFinite MAX_VALUE = true
  /\ Number_isFinite (SFopp MAX_VALUE) = true
  /\ strict_eq (SFopp MAX_VALUE) MAX_VALUE = false
  /\ mapRange_t MAX_VALUE (SFopp MAX_VALUE) MAX_VALUE = NaN
  /\ ~ in_unit (mapRange_t MAX_VALUE (SFopp MAX_VALUE) MAX_VALUE)
  /\ mapRangeClamped MAX_VALUE (SFopp MAX_VALUE) MAX_VALUE (num_of_Z 10) (num_of_Z 20) = NaN.
Proof.
  repeat split; try (vm_compute; reflexivity).
  intros [H _]. vm_compute in H. discriminate.
Qed.

(** C2, as amended. If [inMin === inMax], or one of [x], [inMin], [inMax]
    is not finite (NaN or an infinity), the result is exactly [outMin]. *)
Theorem mapRangeClamped_degenerate (x inMin inMax outMin outMax : number) :
  strict_eq inMin inMax = true
  \/ Number_isFinite x = false
  \/ Number_isFinite inMin = false
  \/ Number_isFinite inMax = false ->
  mapRangeClamped x inMin inMax outMin outMax = outMin.
Proof.
  intros H. unfold mapRangeClamped.
  destruct (Number_isFinite x), (Number_isFinite inMin), (Number_isFinite inMax),
    (strict_eq inMin inMax); simpl; try reflexivity.
  destruct H as [H|[H|[H|H]]]; discriminate.
Qed.

Lemma mapRangeClamped_degenerate_witness :
  mapRangeClamped NaN (num_of_Z 0) (num_of_Z 1) (num_of_Z 10) (num_of_Z 20) = num_of_Z 10
  /\ mapRangeClamped (num_lit 1 (-1)) (num_of_Z 1) (num_of_Z 1) (num_of_Z 10) (num_of_Z 20)
     = num_of_Z 10.
Proof.
  split.
  - apply (mapRangeClamped_degenerate NaN (num_of_Z 0) (num_of_Z 1)).
    right; left; reflexivity.
  - apply (mapRangeClamped_degenerate (num_lit 1 (-1)) (num_of_Z 1) (num_of_Z 1)).
    left; reflexivity.
Defined.

(** C2 as stated fails for the two arguments the guard does not test: with
    [outMax = Infinity] the result is [Infinity], not [outMin = 10]; with
    [outMin = Infinity] the result is NaN, not [Infinity]. *)
Lemma mapRangeClamped_nonfinite_out_counterexample :
  Number_isFinite Infinity = false
  /\ mapRangeClamped (num_lit 1 (-1)) (num_of_Z 0) (num_of_Z 1) (num_of_Z 10) Infinity
     = Infinity
  /\ Infinity <> num_of_Z 10
  /\ mapRangeClamped (num_lit 1 (-1)) (num_of_Z 0) (num_of_Z 1) Infinity (num_of_Z 20)
     = NaN
  /\ NaN <> Infinity.
Proof.
  repeat split; try (vm_compute; reflexivity); discriminate.
Qed.

(* ===================================================================== *)
(** * Strings: basic facts *)
(* ===================================================================== *)

Lemma str_eqb_eq (a b : jsstring) : str_eqb a b = true <-> a = b.
Proof.
  revert b. induction a as [|x a IH]; intros [|y b]; simpl; split;
    try discriminate; try reflexivity.
  - intros H. apply andb_true_iff in H. destruct H as [Hx Ha].
    apply N.eqb_eq in Hx. apply IH in Ha. congruence.
  - intros [= -> ->]. rewrite N.eqb_refl. apply IH. reflexivity.
Qed.

Lemma str_eqb_refl (a : jsstring) : str_eqb a a = true.
Proof. apply str_eqb_eq. reflexivity. Qed.

Lemma str_eqb_neq (a b : jsstring) : str_eqb a b = false <-> a <> b.
Proof.
  split.
  - intros H Heq. apply str_eqb_eq in Heq. congruence.
  - intros H. destruct (str_eqb a b) eqn:E; [|reflexivity].
    apply str_eqb_eq in E. contradiction.
Qed.

Lemma is_empty_nil (s : jsstring) : is_empty s = true <-> s = [].
Proof. destruct s; simpl; split; congruence. Qed.

Lemma startsWith_app (s p : jsstring) :
  startsWith s p = true <-> exists rest, s = p ++ rest.
Proof.
  revert s. induction p as [|y p IH]; intros s; simpl.
  - split; [intros _; exists s; reflexivity | reflexivity].
  - destruct s as [|x s].
    + split; [discriminate | intros [rest H]; discriminate].
    + rewrite andb_true_iff, N.eqb_eq, IH. split.
      * intros [-> [rest ->]]. exists rest. reflexivity.
      * intros [rest [= -> ->]]. split; [reflexivity | exists rest; reflexivity].
Qed.

Lemma startsWith_prefix (p rest : jsstring) : startsWith (p ++ rest) p = true.
Proof. apply startsWith_app. exists rest. reflexivity. Qed.

Lemma Set_has_In (s : list jsstring) (x : jsstring) : Set_has s x = true <-> In x s.
Proof.
  unfold Set_has. rewrite existsb_exists. split.
  - intros [y [Hy He]]. apply str_eqb_eq in He. subst. assumption.
  - intros H. exists x. split; [assumption | apply str_eqb_refl].
Qed.

Lemma Set_has_not_In (s : list jsstring) (x : jsstring) : Set_has s x = false <-> ~ In x s.
Proof.
  rewrite <- Set_has_In. destruct (Set_has s x); split; congruence.
Qed.

(* --------------------------------------------------------------------- *)
(** ** The derivative matcher decides the language *)
(* --------------------------------------------------------------------- *)

Lemma Matches_seq_inv r1 r2 s :
  Matches (RSeq r1 r2) s ->
  exists s1 s2, s = s1 ++ s2 /\ Matches r1 s1 /\ Matches r2 s2.
Proof. intros H. inversion H; subst. eauto. Qed.

Lemma Matches_alt_inv r1 r2 s :
  Matches (RAlt r1 r2) s -> Matches r1 s \/ Matches r2 s.
Proof. intros H. inversion H; subst; auto. Qed.

Lemma Matches_star_cons_inv r c s :
  Matches (RStar r) (c :: s) ->
  exists s1 s2, s = s1 ++ s2 /\ Matches r (c :: s1) /\ Matches (RStar r) s2.
Proof.
  intros H. remember (RStar r) as r' eqn:Er. remember (c :: s) as cs eqn:Es.
  revert s Es. induction H; intros s' Es; try discriminate.
  injection Er as ->. destruct s1 as [|x s1]; simpl in Es.
  - apply IHMatches2; [reflexivity | assumption].
  - injection Es as -> <-. exists s1, s2. auto.
Qed.

Lemma nullable_Matches r : nullable r = true <-> Matches r [].
Proof.
  induction r; simpl; split; intros H; try discriminate;
    try (now constructor); try (now inversion H).
  - apply andb_true_iff in H. destruct H as [H1 H2].
    change (@nil code_unit) with (@nil code_unit ++ []).
    constructor; [apply IHr1 | apply IHr2]; assumption.
  - apply Matches_seq_inv in H. destruct H as (s1 & s2 & E & H1 & H2).
    symmetry in E. apply app_eq_nil in E. destruct E as [-> ->].
    apply andb_true_iff. split; [apply IHr1 | apply IHr2]; assumption.
  - apply orb_true_iff in H. destruct H as [H|H];
      [apply MAltL, IHr1 | apply MAltR, IHr2]; assumption.
  - apply Matches_alt_inv in H. apply orb_true_iff.
    destruct H as [H|H]; [left; apply IHr1 | right; apply IHr2]; assumption.
Qed.

Lemma deriv_Matches r c s : Matches (deriv c r) s <-> Matches r (c :: s).
Proof.
  revert s. induction r; intros s; simpl.
  - split; intros H; inversion H.
  - split; intros H; inversion H.
  - destruct (p c) eqn:Hp; split; intros H; inversion H; subst.
    + apply MClass. assumption.
    + constructor.
    + congruence.
  - assert (Hseq : Matches (RSeq (deriv c r1) r2) s ->
                   Matches (RSeq r1 r2) (c :: s)).
    { intros H. apply Matches_seq_inv in H. destruct H as (s1 & s2 & -> & H1 & H2).
      apply IHr1 in H1. apply (MSeq H1 H2). }
    assert (Hinv : Matches (RSeq r1 r2) (c :: s) ->
                   Matches (RSeq (deriv c r1) r2) s
                   \/ (nullable r1 = true /\ Matches (deriv c r2) s)).
    { intros H. apply Matches_seq_inv in H. destruct H as (s1 & s2 & E & H1 & H2).
      destruct s1 as [|x s1]; simpl in E.
      - right. subst s2. split; [apply nullable_Matches | apply IHr2]; assumption.
      - injection E as <- ->. left. constructor; [apply IHr1|]; assumption. }
    destruct (nullable r1) eqn:Hn; split; intros H.
    + apply Matches_alt_inv in H. destruct H as [H|H]; [auto|].
      apply IHr2 in H. apply nullable_Matches in Hn.
      apply (MSeq (s1 := []) Hn H).
    + destruct (Hinv H) as [H'|[_ H']]; [apply MAltL | apply MAltR]; assumption.
    + auto.
    + destruct (Hinv H) as [H'|[H' _]]; [assumption | discriminate].
  - split; intros H.
    + apply Matches_alt_inv in H.
      destruct H as [H|H]; [apply MAltL, IHr1 | apply MAltR, IHr2]; assumption.
    + apply Matches_alt_inv in H.
      destruct H as [H|H]; [apply MAltL, IHr1 | apply MAltR, IHr2]; assumption.
  - split; intros H.
    + apply Matches_seq_inv in H. destruct H as (s1 & s2 & -> & H1 & H2).
      apply IHr in H1. apply (MStarCons H1 H2).
    + apply Matches_star_cons_inv in H. destruct H as (s1 & s2 & -> & H1 & H2).
      constructor; [apply IHr|]; assumption.
Qed.

Lemma regex_test_Matches r s : regex_test r s = true <-> Matches r s.
Proof.
  revert r. induction s as [|c s IH]; intros r; simpl.
  - apply nullable_Matches.
  - rewrite IH. apply deriv_Matches.
Qed.

Lemma Matches_RChar c s : Matches (RChar c) s <-> s = [c].
Proof.
  unfold RChar. split.
  - intros H. inversion H; subst. apply N.eqb_eq in H1. subst. reflexivity.
  - intros ->. constructor. apply N.eqb_refl.
Qed.

Lemma Matches_RLit l s : Matches (RLit l) s <-> s = l.
Proof.
  revert s. induction l as [|c l IH]; intros s; simpl.
  - split; [intros H; inversion H; reflexivity | intros ->; constructor].
  - split.
    + intros H. apply Matches_seq_inv in H. destruct H as (s1 & s2 & -> & H1 & H2).
      apply Matches_RChar in H1. apply IH in H2. subst. reflexivity.
    + intros ->. apply (MSeq (s1 := [c]) (s2 := l)).
      * apply Matches_RChar. reflexivity.
      * apply IH. reflexivity.
Qed.

Lemma Matches_RAny s : Matches RAny s.
Proof.
  unfold RAny. induction s as [|c s IH].
  - constructor.
  - apply (MStarCons (s1 := [c]) (s2 := s)); [constructor; reflexivity | assumption].
Qed.

Lemma Matches_star_class p s :
  Matches (RStar (RClass p)) s <-> Forall (fun c => p c = true) s.
Proof.
  split.
  - induction s as [|c s IH]; intros H; [constructor|].
    apply Matches_star_cons_inv in H. destruct H as (s1 & s2 & -> & H1 & H2).
    inversion H1; subst. constructor; [assumption | apply IH; assumption].
  - induction 1 as [|c s Hc _ IH]; [constructor|].
    apply (MStarCons (s1 := [c]) (s2 := s)); [constructor|]; assumption.
Qed.

Lemma Matches_plus_class p s :
  Matches (RPlus (RClass p)) s <-> s <> [] /\ Forall (fun c => p c = true) s.
Proof.
  unfold RPlus. split.
  - intros H. apply Matches_seq_inv in H. destruct H as (s1 & s2 & -> & H1 & H2).
    inversion H1; subst. apply Matches_star_class in H2. split; [discriminate|].
    constructor; assumption.
  - intros [Hne Hall]. destruct s as [|c s]; [contradiction|].
    inversion Hall; subst.
    apply (MSeq (s1 := [c]) (s2 := s)); [constructor; assumption|].
    apply Matches_star_class. assumption.
Qed.

(* ===================================================================== *)
(** * Asset resolver: specification *)
(* ===================================================================== *)

(** [/^https?:\/\//.test(p)] holds exactly of the strings that start with
    [http://] or with [https://]. *)
Lemma http_re_startsWith (p : jsstring) :
  regex_test http_re p = startsWith p (lit "http://") || startsWith p (lit "https://").
Proof.
  apply eq_true_iff_eq. rewrite regex_test_Matches, orb_true_iff, !startsWith_app.
  unfold http_re. split.
  - intros H. apply Matches_seq_inv in H. destruct H as (s1 & t1 & -> & H1 & H).
    apply Matches_seq_inv in H. destruct H as (s2 & t2 & -> & H2 & H).
    apply Matches_seq_inv in H. destruct H as (s3 & t3 & -> & H3 & _).
    apply Matches_RLit in H1, H3. subst s1 s3.
    apply Matches_alt_inv in H2. destruct H2 as [H2|H2].
    + apply Matches_RChar in H2. subst s2. right. exists t3. reflexivity.
    + inversion H2; subst. left. exists t3. reflexivity.
  - intros [[rest ->] | [rest ->]].
    + apply (MSeq (s1 := lit "http") (s2 := lit "://" ++ rest)); [apply Matches_RLit; reflexivity|].
      apply (MSeq (s1 := []) (s2 := lit "://" ++ rest)); [apply MAltR; constructor|].
      apply (MSeq (s1 := lit "://") (s2 := rest)); [apply Matches_RLit; reflexivity|].
      apply Matches_RAny.
    + apply (MSeq (s1 := lit "http") (s2 := lit "s://" ++ rest)); [apply Matches_RLit; reflexivity|].
      apply (MSeq (s1 := lit "s") (s2 := lit "://" ++ rest));
        [apply MAltL; apply Matches_RChar; reflexivity|].
      apply (MSeq (s1 := lit "://") (s2 := rest)); [apply Matches_RLit; reflexivity|].
      apply Matches_RAny.
Qed.

(** C4. [asset] returns the empty string on the empty name; returns the
    name unchanged when it starts with [http://], [https://] or [/];
    otherwise returns the base path (["/"] by default, with a trailing ["/"]
    ensured), then [media/], then the name. In particular
    [asset("x.jpg")] is ["/media/x.jpg"] with no base path, and
    ["/app/media/x.jpg"] with the base path ["/app/"]. *)
Theorem asset_spec :
  (forall env p, p = [] -> asset env p = [])
  /\ (forall env p,
        p <> [] ->
        startsWith p (lit "http://") = true \/ startsWith p (lit "https://") = true
        \/ startsWith p (lit "/") = true ->
        asset env p = p)
  /\ (forall env p,
        p <> [] ->
        startsWith p (lit "http://") = false -> startsWith p (lit "https://") = false ->
        startsWith p (lit "/") = false ->
        asset env p = with_trailing_slash (base_path env) ++ lit "media/" ++ p)
  /\ asset NoDocument (lit "x.jpg") = lit "/media/x.jpg"
  /\ asset (Document None) (lit "x.jpg") = lit "/media/x.jpg"
  /\ asset (Document (Some (lit "/app/"))) (lit "x.jpg") = lit "/app/media/x.jpg".
Proof.
  split; [|split; [|split; [|repeat split; reflexivity]]].
  - intros env p ->. reflexivity.
  - intros env p Hne H. unfold asset.
    destruct p as [|c p]; [contradiction|]. cbn [is_empty].
    rewrite http_re_startsWith.
    destruct H as [-> | [-> | ->]]; rewrite ?orb_true_r; reflexivity.
  - intros env p Hne H1 H2 H3. unfold asset.
    destruct p as [|c p]; [contradiction|]. cbn [is_empty].
    rewrite http_re_startsWith, H1, H2, H3. cbn [orb].
    destruct env; reflexivity.
Qed.

Lemma asset_spec_witness :
  asset (Document (Some (lit "/site"))) (lit "works/box.png") = lit "/site/media/works/box.png"
  /\ asset DocumentThrows (lit "https://cdn.example/a.png") = lit "https://cdn.example/a.png".
Proof.
  split.
  - apply (proj1 (proj2 (proj2 asset_spec)) (Document (Some (lit "/site"))) (lit "works/box.png"));
      [discriminate | reflexivity | reflexivity | reflexivity].
  - apply (proj1 (proj2 asset_spec) DocumentThrows (lit "https://cdn.example/a.png"));
      [discriminate | right; left; reflexivity].
Defined.

(** [Array.from(new Set(l))] keeps each entry at its first occurrence. *)
Lemma fold_Set_add_keep_first (l acc seen : list jsstring) :
  (forall x, In x acc <-> In x seen) ->
  fold_left Set_add l acc = acc ++ keep_first seen l.
Proof.
  revert acc seen. induction l as [|x l IH]; intros acc seen Hs; simpl.
  - rewrite app_nil_r. reflexivity.
  - unfold Set_add at 2.
    assert (E : Set_has acc x = Set_has seen x).
    { apply eq_true_iff_eq. rewrite !Set_has_In. apply Hs. }
    rewrite E. destruct (Set_has seen x).
    + apply IH. assumption.
    + rewrite (IH (acc ++ [x]) (x :: seen)).
      * rewrite <- app_assoc. reflexivity.
      * intros y. rewrite in_app_iff. simpl. rewrite Hs. tauto.
Qed.

Lemma Array_from_Set_keep_first (l : list jsstring) :
  Array_from_Set l = keep_first [] l.
Proof.
  unfold Array_from_Set. rewrite (fold_Set_add_keep_first l [] []); [reflexivity|].
  intros x. tauto.
Qed.

Lemma keep_first_In (l seen : list jsstring) (x : jsstring) :
  In x (keep_first seen l) <-> In x l /\ ~ In x seen.
Proof.
  revert seen. induction l as [|y l IH]; intros seen; simpl.
  - tauto.
  - destruct (Set_has seen y) eqn:E.
    + apply Set_has_In in E. rewrite IH. split.
      * intros [H1 H2]. auto.
      * intros [[-> | H1] H2]; [contradiction | auto].
    + apply Set_has_not_In in E. simpl. rewrite IH. simpl. split.
      * intros [-> | [H1 H2]]; [auto|]. split; [auto|]. intros H. apply H2. auto.
      * intros [[-> | H1] H2]; [auto|].
        destruct (str_eqb y x) eqn:Eyx.
        -- apply str_eqb_eq in Eyx. auto.
        -- apply str_eqb_neq in Eyx. right. split; [assumption|].
           intros [H|H]; contradiction.
Qed.

Lemma keep_first_NoDup (l seen : list jsstring) : NoDup (keep_first seen l).
Proof.
  revert seen. induction l as [|y l IH]; intros seen; simpl.
  - constructor.
  - destruct (Set_has seen y); [apply IH|].
    constructor; [|apply IH].
    rewrite keep_first_In. simpl. intros [_ H]. apply H. auto.
Qed.

(** C3. The list [assetChain] returns has no duplicate entry, contains
    ["/" + name], and starts with [asset(name)]; when [asset(name)] does not
    start with ["/media/"] it also contains ["/media/" + name]; and it is the
    chain as pushed, each entry kept at its first occurrence. *)
Theorem assetChain_spec (env : document_env) (p : jsstring) :
  NoDup (assetChain env p)
  /\ In (lit "/" ++ p) (assetChain env p)
  /\ hd_error (assetChain env p) = Some (asset env p)
  /\ (startsWith (asset env p) (lit "/media/") = false ->
      In (lit "/media/" ++ p) (assetChain env p))
  /\ assetChain env p = keep_first [] (assetChain_raw env p).
Proof.
  unfold assetChain. rewrite Array_from_Set_keep_first.
  split; [apply keep_first_NoDup|].
  split; [|split; [|split; [|reflexivity]]].
  - apply keep_first_In. split; [|tauto].
    unfold assetChain_raw. apply in_or_app. right. left. reflexivity.
  - unfold assetChain_raw.
    destruct (negb (startsWith (asset env p) (lit "/media/"))); reflexivity.
  - intros H. apply keep_first_In. split; [|tauto].
    unfold assetChain_raw. rewrite H. simpl. auto.
Qed.

(* ===================================================================== *)
(** * SmartImg: specification *)
(* ===================================================================== *)

Lemma SmartImg_onError_step (sources : list jsstring) (i : nat) :
  (i + 1 < List.length sources -> SmartImg_onError sources i = i + 1)
  /\ (List.length sources <= i + 1 -> SmartImg_onError sources i = i).
Proof.
  unfold SmartImg_onError. destruct (Nat.ltb_spec (i + 1) (List.length sources)); split; lia.
Qed.

Lemma SmartImg_onError_bound (sources : list jsstring) (i : nat) :
  i < List.length sources -> SmartImg_onError sources i < List.length sources.
Proof.
  intros H. unfold SmartImg_onError.
  destruct (Nat.ltb_spec (i + 1) (List.length sources)); lia.
Qed.

(** After [k] load errors the index is [k], capped at the last position. *)
Lemma SmartImg_after_min (sources : list jsstring) (k : nat) :
  sources <> [] -> SmartImg_after sources k = Nat.min k (List.length sources - 1).
Proof.
  intros Hne. assert (0 < List.length sources) by (destruct sources; [contradiction | simpl; lia]).
  induction k as [|k IH]; cbn [SmartImg_after].
  - reflexivity.
  - rewrite IH. unfold SmartImg_onError.
    destruct (Nat.ltb_spec (Nat.min k (List.length sources - 1) + 1) (List.length sources)); lia.
Qed.

Lemma SmartImg_reachable_after (sources : list jsstring) (i : nat) :
  SmartImg_reachable sources i <-> exists k, i = SmartImg_after sources k.
Proof.
  split.
  - induction 1 as [|i _ [k ->]]; [exists 0 | exists (S k)]; reflexivity.
  - intros [k ->]. induction k; simpl; constructor; assumption.
Qed.

(** C10. For a non-empty list of sources every index the component can
    reach, from [0] through any number of load errors, is in bounds, so the
    source on display is an element of the list; a load error moves the
    index from [i] to [i + 1] only when [i + 1 < sources.length] and leaves
    it at [i] otherwise; in particular it stays at the last position when
    the last candidate fails. *)
Theorem SmartImg_index_in_bounds (sources : list jsstring) (i : nat) :
  sources <> [] ->
  SmartImg_reachable sources i ->
  i < List.length sources
  /\ (exists s, SmartImg_src sources i = Some s /\ In s sources)
  /\ (i + 1 < List.length sources -> SmartImg_onError sources i = i + 1)
  /\ (List.length sources <= i + 1 -> SmartImg_onError sources i = i)
  /\ SmartImg_onError sources (List.length sources - 1) = List.length sources - 1.
Proof.
  intros Hne Hr.
  assert (Hpos : 0 < List.length sources) by (destruct sources; [contradiction | simpl; lia]).
  assert (Hi : i < List.length sources).
  { induction Hr; [exact Hpos | apply SmartImg_onError_bound; assumption]. }
  split; [exact Hi|]. split; [|split; [|split]].
  - unfold SmartImg_src. destruct (nth_error sources i) as [s|] eqn:E.
    + exists s. split; [reflexivity | apply (nth_error_In _ _ E)].
    + apply nth_error_None in E. lia.
  - apply SmartImg_onError_step.
  - apply SmartImg_onError_step.
  - apply SmartImg_onError_step. lia.
Qed.

Lemma SmartImg_index_in_bounds_witness :
  1 < 2
  /\ (exists s, SmartImg_src [lit "/media/a.png"; lit "/a.png"] 1 = Some s
                /\ In s [lit "/media/a.png"; lit "/a.png"])
  /\ (1 + 1 < 2 -> SmartImg_onError [lit "/media/a.png"; lit "/a.png"] 1 = 1 + 1)
  /\ (2 <= 1 + 1 -> SmartImg_onError [lit "/media/a.png"; lit "/a.png"] 1 = 1)
  /\ SmartImg_onError [lit "/media/a.png"; lit "/a.png"] (2 - 1) = 2 - 1.
Proof.
  apply (SmartImg_index_in_bounds (sources := [lit "/media/a.png"; lit "/a.png"]) (i := 1)).
  - discriminate.
  - apply (reach_error (reach_init [lit "/media/a.png"; lit "/a.png"])).
Defined.

(* ===================================================================== *)
(** * Works filter: specification *)
(* ===================================================================== *)

Section WorksFacts.

Variable T : Type.

Lemma Selected_unique (P : T -> Prop) (l r1 r2 : list T) :
  Selected P l r1 -> Selected P l r2 -> r1 = r2.
Proof.
  intros H1. revert r2. induction H1; intros r2 H2; inversion H2; subst;
    try reflexivity; try contradiction.
  - f_equal. apply IHSelected. assumption.
  - apply IHSelected. assumption.
Qed.

Lemma Selected_none (P : T -> Prop) (l : list T) :
  (forall x, In x l -> ~ P x) -> Selected P l [].
Proof.
  induction l as [|x l IH]; intros H; constructor.
  - apply H. left. reflexivity.
  - apply IH. intros y Hy. apply H. right. assumption.
Qed.

(** The items of [r] come from [l] in their original relative order. *)
Lemma Selected_kept (P : T -> Prop) (l r : list T) :
  Selected P l r -> forall x, In x r <-> In x l /\ P x.
Proof.
  induction 1 as [|x l r Hx _ IH|x l r Hx _ IH]; intros y; simpl.
  - tauto.
  - rewrite IH. split.
    + intros [-> | [H1 H2]]; auto.
    + intros [[-> | H1] H2]; auto.
  - rewrite IH. split.
    + intros [H1 H2]; auto.
    + intros [[-> | H1] H2]; [contradiction | auto].
Qed.

Variable tags : T -> list jsstring.

Lemma includes_In (l : list jsstring) (x : jsstring) : includes l x = true <-> In x l.
Proof. apply Set_has_In. Qed.

Lemma Selected_filter (tag : jsstring) (items : list T) :
  Selected (fun it => In tag (tags it)) items
           (filter (fun it => includes (tags it) tag) items).
Proof.
  induction items as [|x l IH]; simpl.
  - constructor.
  - destruct (includes (tags x) tag) eqn:E.
    + apply sel_keep; [apply includes_In|]; assumption.
    + apply sel_drop; [|assumption]. rewrite <- includes_In. congruence.
Qed.

End WorksFacts.

(** C8. [filterByTag] returns the whole list when the tag is ["All"] or
    empty; otherwise it returns exactly the items whose [tags] contain the
    tag, in their original relative order, and the empty list when no item
    has the tag. *)
Theorem filterByTag_spec (T : Type) (tags : T -> list jsstring)
        (items : list T) (tag : jsstring) :
  (tag = [] \/ tag = lit "All" -> filterByTag tags items tag = items)
  /\ (tag <> [] -> tag <> lit "All" ->
      (forall r, Selected (fun it => In tag (tags it)) items r
                 <-> r = filterByTag tags items tag)
      /\ (forall it, In it (filterByTag tags items tag)
                     <-> In it items /\ In tag (tags it))
      /\ ((forall it, In it items -> ~ In tag (tags it)) ->
          filterByTag tags items tag = [])).
Proof.
  split.
  - intros [-> | ->]; reflexivity.
  - intros H1 H2. unfold filterByTag.
    destruct tag as [|c tag]; [contradiction|].
    apply str_eqb_neq in H2. cbn [is_empty orb]. rewrite H2.
    pose proof (Selected_filter tags (c :: tag) items) as Hsel.
    split; [|split].
    + intros r. split.
      * intros Hr. apply (Selected_unique Hr Hsel).
      * intros ->. exact Hsel.
    + apply (Selected_kept Hsel).
    + intros Hnone. apply (Selected_unique Hsel). apply Selected_none. assumption.
Qed.

Lemma filterByTag_spec_witness :
  filterByTag (fun it : list jsstring => it)
              [[lit "x"]; [lit "y"; lit "x"]; [lit "z"]] (lit "All")
  = [[lit "x"]; [lit "y"; lit "x"]; [lit "z"]]
  /\ forall it, In it (filterByTag (fun it : list jsstring => it)
                         [[lit "x"]; [lit "y"; lit "x"]; [lit "z"]] (lit "x"))
                <-> In it [[lit "x"]; [lit "y"; lit "x"]; [lit "z"]] /\ In (lit "x") it.
Proof.
  split.
  - apply (proj1 (filterByTag_spec (fun it : list jsstring => it)
                    [[lit "x"]; [lit "y"; lit "x"]; [lit "z"]] (lit "All"))).
    right. reflexivity.
  - apply (proj2 (filterByTag_spec (fun it : list jsstring => it)
                    [[lit "x"]; [lit "y"; lit "x"]; [lit "z"]] (lit "x")));
      discriminate.
Defined.

(* ===================================================================== *)
(** * Contact form: validation *)
(* ===================================================================== *)

(** The pattern of [onSubmit] accepts exactly the shape
    [local@domain.tld]. *)
Lemma email_re_shape (e : jsstring) :
  regex_test email_re e = true <-> email_shape e.
Proof.
  rewrite regex_test_Matches. unfold email_re, email_shape, plain_run. split.
  - intros H.
    apply Matches_seq_inv in H. destruct H as (loc & t1 & -> & Hloc & H).
    apply Matches_seq_inv in H. destruct H as (a & t2 & -> & Ha & H).
    apply Matches_seq_inv in H. destruct H as (dom & t3 & -> & Hdom & H).
    apply Matches_seq_inv in H. destruct H as (d & tld & -> & Hd & Htld).
    apply Matches_RChar in Ha, Hd. subst a d.
    apply Matches_plus_class in Hloc, Hdom, Htld.
    exists loc, dom, tld. auto.
  - intros (loc & dom & tld & -> & Hloc & Hdom & Htld).
    apply Matches_plus_class in Hloc, Hdom, Htld.
    repeat (apply MSeq); try assumption; apply Matches_RChar; reflexivity.
Qed.

Lemma trimStart_nil (s : jsstring) :
  trimStart s = [] <-> Forall (fun c => is_white_space c = true) s.
Proof.
  induction s as [|c s IH]; simpl.
  - split; [constructor | reflexivity].
  - destruct (is_white_space c) eqn:E.
    + rewrite IH. split; [constructor; assumption | intros H; inversion H; assumption].
    + split; [discriminate | intros H; inversion H; congruence].
Qed.

(** A string is empty after trimming exactly when all of it is white
    space. *)
Lemma trim_nil (s : jsstring) :
  trim s = [] <-> Forall (fun c => is_white_space c = true) s.
Proof.
  unfold trim, trimEnd. split.
  - intros H. apply (f_equal (@rev code_unit)) in H. rewrite rev_involutive in H.
    simpl in H. apply trimStart_nil in H. apply Forall_rev in H.
    rewrite rev_involutive in H.
    destruct (trimStart s) as [|c t] eqn:E; [apply trimStart_nil; assumption|].
    exfalso. inversion H as [|c' t' Hc _]; subst.
    clear H. revert c t E Hc. induction s as [|x s IH]; simpl; intros c t E Hc.
    + discriminate.
    + destruct (is_white_space x) eqn:Ex.
      * apply (IH c t); assumption.
      * injection E as -> ->. congruence.
  - intros H. apply trimStart_nil in H. rewrite H. reflexivity.
Qed.

Lemma missing_field_dec (f : ContactForm) :
  is_empty (trim (name f)) || is_empty (trim (email f)) || is_empty (trim (message f)) = true
  <-> missing_field f.
Proof.
  unfold missing_field. rewrite !orb_true_iff, !is_empty_nil. tauto.
Qed.

(** C5. Validation fails with [MissingField] exactly when the name, the
    e-mail address or the message is empty after trimming; otherwise with
    [InvalidEmail] exactly when the address does not have the shape
    [local@domain.tld]; otherwise with [ConsentRequired] exactly when the
    consent flag is false; otherwise it succeeds. [onSubmit] shows the
    error of the first guard that fires, and only that one. *)
Theorem validate_first_failure (f : ContactForm) :
  (validate f = Some MissingField <-> missing_field f)
  /\ (validate f = Some InvalidEmail
      <-> ~ missing_field f /\ ~ email_shape (email f))
  /\ (validate f = Some ConsentRequired
      <-> ~ missing_field f /\ email_shape (email f) /\ agree f = false)
  /\ (validate f = None
      <-> ~ missing_field f /\ email_shape (email f) /\ agree f = true)
  /\ (forall e, onSubmit f = ShowError e <-> validate f = Some e).
Proof.
  assert (Hon : forall e, onSubmit f = ShowError e <-> validate f = Some e).
  { intros e. unfold onSubmit. destruct (validate f) as [e'|].
    - split; congruence.
    - destruct (buildMailto _ _ _); split; discriminate. }
  split; [|split; [|split; [|split; [|exact Hon]]]]; clear Hon;
    unfold validate; rewrite <- missing_field_dec, <- ?email_re_shape;
    (destruct (is_empty (trim (name f)) || is_empty (trim (email f))
               || is_empty (trim (message f))) eqn:Em;
     [|destruct (regex_test email_re (email f)) eqn:Ee; [destruct (agree f) eqn:Ea|]]);
    simpl; split; intros H; try discriminate; try reflexivity;
    repeat match goal with
           | H : _ /\ _ |- _ => destruct H
           end;
    try congruence; repeat split; congruence.
Qed.

(** The two failures of the specification's end-to-end example: an empty
    message, and the address ["abc"]. *)
Lemma validate_examples :
  onSubmit {| name := lit "Kim"; email := lit "kim@example.com"; budget := [];
              timeline := []; message := []; agree := true |}
  = ShowError MissingField
  /\ onSubmit {| name := lit "Kim"; email := lit "abc"; budget := [];
                 timeline := []; message := lit "hello"; agree := true |}
     = ShowError InvalidEmail
  /\ onSubmit {| name := lit "Kim"; email := lit "kim@example.com"; budget := [];
                 timeline := []; message := lit "hello"; agree := false |}
     = ShowError ConsentRequired.
Proof. repeat split; vm_compute; reflexivity. Qed.

(* ===================================================================== *)
(** * Contact form: the mail address *)
(* ===================================================================== *)

Lemma unreserved_not_surrogate c :
  is_unreserved c = true -> is_high_surrogate c = false /\ is_low_surrogate c = false.
Proof. intros H. split; units_lia. Qed.

Lemma high_not_unreserved c :
  is_high_surrogate c = true -> is_unreserved c = false /\ is_low_surrogate c = false.
Proof. intros H. split; units_lia. Qed.

Lemma unreserved_ascii c :
  is_unreserved c = true -> (c < 128 /\ c <> 37 /\ c <> 43 /\ c <> 38)%N.
Proof. intros H. units_lia. Qed.

(** Induction over a string one or two code units at a time. *)
Lemma string_pair_ind (P : jsstring -> Prop) :
  P [] ->
  (forall c, P [c]) ->
  (forall c d s, P s -> P (d :: s) -> P (c :: d :: s)) ->
  forall s, P s.
Proof.
  intros Hnil Hone Htwo s.
  assert (H : P s /\ forall c, P (c :: s)).
  { induction s as [|d s [IH1 IH2]].
    - split; [exact Hnil | exact Hone].
    - split; [apply IH2 | intros c; apply Htwo; [exact IH1 | apply IH2]]. }
  apply H.
Qed.

Section EncodeEquations.

Variables (c d : code_unit) (s : jsstring).

Lemma isWellFormed_unit :
  is_high_surrogate c = false -> is_low_surrogate c = false ->
  isWellFormed (c :: s) = isWellFormed s.
Proof. intros H1 H2. simpl. rewrite H1, H2. reflexivity. Qed.

Lemma isWellFormed_pair :
  is_high_surrogate c = true -> is_low_surrogate d = true ->
  isWellFormed (c :: d :: s) = isWellFormed s.
Proof. intros H1 H2. cbn [isWellFormed]. rewrite H1, H2. reflexivity. Qed.

Lemma utf8_encode_unit :
  is_high_surrogate c = false -> is_low_surrogate c = false ->
  utf8_encode (c :: s) = utf8_octets c ++ utf8_encode s.
Proof. intros H1 H2. simpl. rewrite H1, H2. reflexivity. Qed.

Lemma utf8_encode_pair :
  is_high_surrogate c = true -> is_low_surrogate d = true ->
  utf8_encode (c :: d :: s) = utf8_octets (pair_code_point c d) ++ utf8_encode s.
Proof. intros H1 H2. cbn [utf8_encode]. rewrite H1, H2. reflexivity. Qed.

Lemma encodeURIComponent_plain :
  is_unreserved c = true ->
  encodeURIComponent (c :: s) = option_map (cons c) (encodeURIComponent s).
Proof. intros H. simpl. rewrite H. reflexivity. Qed.

Lemma encodeURIComponent_unit :
  is_unreserved c = false -> is_high_surrogate c = false ->
  is_low_surrogate c = false ->
  encodeURIComponent (c :: s)
  = option_map (app (percent_octets (utf8_octets c))) (encodeURIComponent s).
Proof. intros H0 H1 H2. simpl. rewrite H0, H1, H2. reflexivity. Qed.

Lemma encodeURIComponent_pair :
  is_high_surrogate c = true -> is_low_surrogate d = true ->
  encodeURIComponent (c :: d :: s)
  = option_map (app (percent_octets (utf8_octets (pair_code_point c d))))
               (encodeURIComponent s).
Proof.
  intros H1 H2. destruct (high_not_unreserved c H1) as [H0 _].
  cbn [encodeURIComponent]. rewrite H0, H1, H2. reflexivity.
Qed.

End EncodeEquations.

(** [encodeURIComponent] returns exactly on the well-formed strings, and
    then its output is the unit-by-unit encoding. *)
Lemma encodeURIComponent_cases (s : jsstring) :
  match encodeURIComponent s with
  | Some e => isWellFormed s = true /\ Encoded s e
  | None => isWellFormed s = false
  end.
Proof.
  induction s as [|c|c d s IH1 IH2] using string_pair_ind.
  - simpl. split; [reflexivity | constructor].
  - destruct (is_unreserved c) eqn:E0.
    + destruct (unreserved_not_surrogate c E0) as [E1 E2].
      rewrite encodeURIComponent_plain, isWellFormed_unit by assumption.
      simpl. split; [reflexivity | repeat constructor; assumption].
    + destruct (is_high_surrogate c) eqn:E1.
      * simpl. rewrite E0, E1. reflexivity.
      * destruct (is_low_surrogate c) eqn:E2.
        -- simpl. rewrite E0, E1, E2. reflexivity.
        -- rewrite encodeURIComponent_unit, isWellFormed_unit by assumption.
           simpl. split; [reflexivity|].
           apply enc_unit; try assumption. constructor.
  - destruct (is_unreserved c) eqn:E0.
    + destruct (unreserved_not_surrogate c E0) as [E1 E2].
      rewrite encodeURIComponent_plain, isWellFormed_unit by assumption.
      destruct (encodeURIComponent (d :: s)) as [e|]; simpl.
      * destruct IH2 as [Hw He]. split; [assumption | constructor; assumption].
      * assumption.
    + destruct (is_high_surrogate c) eqn:E1.
      * destruct (is_low_surrogate d) eqn:E2.
        -- rewrite encodeURIComponent_pair, isWellFormed_pair by assumption.
           destruct (encodeURIComponent s) as [e|]; simpl.
           ++ destruct IH1 as [Hw He]. split; [assumption | constructor; assumption].
           ++ assumption.
        -- cbn [encodeURIComponent isWellFormed]. rewrite E0, E1, E2. reflexivity.
      * destruct (is_low_surrogate c) eqn:E2.
        -- cbn [encodeURIComponent isWellFormed]. rewrite E0, E1, E2. reflexivity.
        -- rewrite encodeURIComponent_unit, isWellFormed_unit by assumption.
           destruct (encodeURIComponent (d :: s)) as [e|]; simpl.
           ++ destruct IH2 as [Hw He]. split; [assumption | constructor; assumption].
           ++ assumption.
Qed.

Lemma encodeURIComponent_Some (s : jsstring) :
  isWellFormed s = true -> exists e, encodeURIComponent s = Some e /\ Encoded s e.
Proof.
  intros H. pose proof (encodeURIComponent_cases s) as Hc.
  destruct (encodeURIComponent s) as [e|].
  - exists e. split; [reflexivity | apply Hc].
  - congruence.
Qed.

Lemma encodeURIComponent_None (s : jsstring) :
  isWellFormed s = false -> encodeURIComponent s = None.
Proof.
  intros H. pose proof (encodeURIComponent_cases s) as Hc.
  destruct (encodeURIComponent s) as [e|]; [|reflexivity].
  destruct Hc. congruence.
Qed.

(* --------------------------------------------------------------------- *)
(** ** [%20] becomes [+] *)
(* --------------------------------------------------------------------- *)

Lemma hex_digit_cases n :
  (hex_digit n = 48 + n /\ n < 10 \/ hex_digit n = 55 + n /\ 10 <= n)%N.
Proof. unfold hex_digit. destruct (N.ltb_spec n 10); lia. Qed.

Lemma hex_value_digit n : (n < 16)%N -> hex_value (hex_digit n) = Some n.
Proof.
  intros Hn. unfold hex_value.
  destruct (hex_digit_cases n) as [[-> H]|[-> H]].
  - replace ((48 <=? 48 + n) && (48 + n <=? 57))%N with true
      by (symmetry; apply andb_true_iff; split; apply N.leb_le; lia).
    f_equal. lia.
  - replace ((48 <=? 55 + n) && (55 + n <=? 57))%N with false
      by (symmetry; apply andb_false_iff; right; apply N.leb_gt; lia).
    replace ((65 <=? 55 + n) && (55 + n <=? 70))%N with true
      by (symmetry; apply andb_true_iff; split; apply N.leb_le; lia).
    f_equal. lia.
Qed.

Lemma replace_from_start (pat rep : jsstring) (c : code_unit) (rest : jsstring) :
  replace_from pat rep 0 (c :: rest)
  = if startsWith (c :: rest) pat
    then rep ++ replace_from pat rep (List.length pat - 1) rest
    else c :: replace_from pat rep 0 rest.
Proof. reflexivity. Qed.

Lemma replace_plain (c : code_unit) (rest : jsstring) :
  c <> 37%N ->
  replace_global (lit "%20") (lit "+") (c :: rest)
  = c :: replace_global (lit "%20") (lit "+") rest.
Proof.
  intros Hc. unfold replace_global. rewrite replace_from_start.
  change (lit "%20") with [37; 50; 48]%N. cbn [startsWith].
  apply N.eqb_neq in Hc. rewrite Hc. reflexivity.
Qed.

Lemma replace_percent_octet (o : N) (rest : jsstring) :
  replace_global (lit "%20") (lit "+") (percent_octet o ++ rest)
  = enc_octet o ++ replace_global (lit "%20") (lit "+") rest.
Proof.
  unfold enc_octet. destruct (N.eqb_spec o 32) as [->|Ho].
  - reflexivity.
  - unfold percent_octet. cbn [app].
    unfold replace_global at 1. rewrite replace_from_start.
    change (lit "%20") with [37; 50; 48]%N. change (ch "%") with 37%N.
    cbn [startsWith].
    assert (E : (hex_digit (o / 16) =? 50)%N && ((hex_digit (o mod 16) =? 48)%N && true)
                = false).
    { destruct (N.eqb_spec (hex_digit (o / 16)) 50) as [E1|]; [|reflexivity].
      destruct (N.eqb_spec (hex_digit (o mod 16)) 48) as [E2|]; [|reflexivity].
      exfalso. apply Ho.
      destruct (hex_digit_cases (o / 16)) as [[H1 _]|[H1 _]];
        destruct (hex_digit_cases (o mod 16)) as [[H2 _]|[H2 _]];
        rewrite H1 in E1; rewrite H2 in E2; divmod_lia. }
    rewrite N.eqb_refl. cbn [andb]. rewrite E.
    change (replace_from [37; 50; 48]%N (lit "+") 0) with (replace_global (lit "%20") (lit "+")).
    rewrite !replace_plain; [reflexivity| |].
    + destruct (hex_digit_cases (o mod 16)) as [[-> _]|[-> _]]; divmod_lia.
    + destruct (hex_digit_cases (o / 16)) as [[-> _]|[-> _]]; divmod_lia.
Qed.

Lemma replace_percent_octets (os : list N) (rest : jsstring) :
  replace_global (lit "%20") (lit "+") (percent_octets os ++ rest)
  = flat_map enc_octet os ++ replace_global (lit "%20") (lit "+") rest.
Proof.
  induction os as [|o os IH]; [reflexivity|].
  unfold percent_octets in *. cbn [flat_map]. rewrite <- !app_assoc.
  rewrite replace_percent_octet, IH. reflexivity.
Qed.

Lemma Encoded_replace (s e : jsstring) :
  Encoded s e -> Enc s (replace_global (lit "%20") (lit "+") e).
Proof.
  induction 1 as [|c s e Hc _ IH|c s e H0 H1 H2 _ IH|h l s e H0 H1 H2 _ IH].
  - constructor.
  - rewrite replace_plain by (apply unreserved_ascii; assumption).
    constructor; assumption.
  - rewrite replace_percent_octets. constructor; assumption.
  - rewrite replace_percent_octets. constructor; assumption.
Qed.

(** On a well-formed string [enc] returns, and what it returns is the
    unit-by-unit encoding with [+] for each space. *)
Lemma enc_wf (s : jsstring) :
  isWellFormed s = true -> exists e, enc s = Some e /\ Enc s e.
Proof.
  intros H. destruct (encodeURIComponent_Some s H) as (e0 & He0 & Henc).
  exists (replace_global (lit "%20") (lit "+") e0). unfold enc. rewrite He0.
  split; [reflexivity | apply Encoded_replace; assumption].
Qed.

(** C6, as amended. For every [to], and every [subject] and [body] that
    hold no unpaired surrogate, [buildMailto] returns
    ["mailto:" + to + "?subject=" + E(subject) + "&body=" + E(body)], where
    [E] percent-encodes its argument as [encodeURIComponent] does and then
    replaces every [%20] by [+] (so that, unit by unit, an unreserved code
    unit is copied, a space becomes [+], and every other code point becomes
    the [%XX] of its UTF-8 octets). When [subject] or [body] holds an
    unpaired surrogate, [encodeURIComponent] raises URIError and
    [buildMailto] returns nothing. *)
Theorem buildMailto_spec (to subject body : jsstring) :
  (isWellFormed subject = true -> isWellFormed body = true ->
   exists es eb,
     encodeURIComponent subject = Some es
     /\ encodeURIComponent body = Some eb
     /\ buildMailto to subject body
        = Some (lit "mailto:" ++ to ++ lit "?subject="
                ++ replace_global (lit "%20") (lit "+") es
                ++ lit "&body=" ++ replace_global (lit "%20") (lit "+") eb)
     /\ Enc subject (replace_global (lit "%20") (lit "+") es)
     /\ Enc body (replace_global (lit "%20") (lit "+") eb))
  /\ (isWellFormed subject = false \/ isWellFormed body = false ->
      buildMailto to subject body = None).
Proof.
  split.
  - intros Hs Hb.
    destruct (encodeURIComponent_Some subject Hs) as (es & Hes & Hencs).
    destruct (encodeURIComponent_Some body Hb) as (eb & Heb & Hencb).
    exists es, eb. unfold buildMailto, enc. rewrite Hes, Heb.
    repeat split; try reflexivity; apply Encoded_replace; assumption.
  - intros [H|H]; apply encodeURIComponent_None in H; unfold buildMailto, enc.
    + rewrite H. reflexivity.
    + rewrite H. destruct (encodeURIComponent subject); reflexivity.
Qed.

Lemma buildMailto_spec_witness :
  exists es eb,
    encodeURIComponent (lit "Hi there") = Some es
    /\ encodeURIComponent (lit "a&b") = Some eb
    /\ buildMailto (lit "x@y.z") (lit "Hi there") (lit "a&b")
       = Some (lit "mailto:" ++ lit "x@y.z" ++ lit "?subject="
               ++ replace_global (lit "%20") (lit "+") es
               ++ lit "&body=" ++ replace_global (lit "%20") (lit "+") eb)
    /\ Enc (lit "Hi there") (replace_global (lit "%20") (lit "+") es)
    /\ Enc (lit "a&b") (replace_global (lit "%20") (lit "+") eb).
Proof.
  apply (proj1 (buildMailto_spec (lit "x@y.z") (lit "Hi there") (lit "a&b")));
    reflexivity.
Defined.

(** The address of the witness, spelled out. *)
Lemma buildMailto_example :
  buildMailto (lit "x@y.z") (lit "Hi there") (lit "a&b")
  = Some (lit "mailto:x@y.z?subject=Hi+there&body=a%26b").
Proof. vm_compute. reflexivity. Qed.

(** C6 as stated fails on a string with an unpaired surrogate: for the
    subject made of the single code unit U+D800, [encodeURIComponent]
    raises URIError, and [buildMailto] returns no string. *)
Lemma buildMailto_lone_surrogate_counterexample :
  isWellFormed [55296%N] = false
  /\ encodeURIComponent [55296%N] = None
  /\ buildMailto (lit "x@y.z") [55296%N] (lit "hello") = None.
Proof. repeat split; vm_compute; reflexivity. Qed.

(* --------------------------------------------------------------------- *)
(** ** Reading the body back *)
(* --------------------------------------------------------------------- *)

Lemma percent_decode_cons (c : code_unit) (rest : jsstring) :
  percent_decode (c :: rest)
  = match rest with
    | h1 :: h2 :: rest' =>
        match (if N.eqb c 37 then hex_pair h1 h2 else None) with
        | Some o => o :: percent_decode rest'
        | None => c :: percent_decode rest
        end
    | _ => c :: percent_decode rest
    end.
Proof. destruct rest as [|h1 [|h2 rest']]; reflexivity. Qed.

Lemma percent_decode_plain (c : code_unit) (rest : jsstring) :
  c <> 37%N -> percent_decode (c :: rest) = c :: percent_decode rest.
Proof.
  intros Hc. rewrite percent_decode_cons. apply N.eqb_neq in Hc. rewrite Hc.
  destruct rest as [|h1 [|h2 rest']]; reflexivity.
Qed.

Lemma percent_decode_octet (o : N) (rest : jsstring) :
  (o < 256)%N -> percent_decode (percent_octet o ++ rest) = o :: percent_decode rest.
Proof.
  intros Ho. unfold percent_octet. cbn [app]. rewrite percent_decode_cons.
  change (ch "%") with 37%N. rewrite N.eqb_refl. unfold hex_pair.
  rewrite !hex_value_digit by divmod_lia.
  f_equal. divmod_lia.
Qed.

Lemma plus_as_space_app (a b : jsstring) :
  plus_as_space (a ++ b) = plus_as_space a ++ plus_as_space b.
Proof. apply map_app. Qed.

Lemma plus_as_space_plain (c : code_unit) (e : jsstring) :
  c <> 43%N -> plus_as_space (c :: e) = c :: plus_as_space e.
Proof.
  intros Hc. unfold plus_as_space. cbn [map]. change (ch "+") with 43%N.
  apply N.eqb_neq in Hc. rewrite Hc. reflexivity.
Qed.

Lemma plus_as_space_octet (o : N) : plus_as_space (percent_octet o) = percent_octet o.
Proof.
  unfold percent_octet, plus_as_space. cbn [map]. change (ch "+") with 43%N.
  change (ch "%") with 37%N. cbn [N.eqb Pos.eqb].
  replace (hex_digit (o / 16) =? 43)%N with false
    by (symmetry; apply N.eqb_neq;
        destruct (hex_digit_cases (o / 16)) as [[-> _]|[-> _]]; divmod_lia).
  replace (hex_digit (o mod 16) =? 43)%N with false
    by (symmetry; apply N.eqb_neq;
        destruct (hex_digit_cases (o mod 16)) as [[-> _]|[-> _]]; divmod_lia).
  reflexivity.
Qed.

Lemma decode_enc_octets (os : list N) (rest : jsstring) :
  Forall (fun o => o < 256)%N os ->
  percent_decode (plus_as_space (flat_map enc_octet os) ++ rest)
  = os ++ percent_decode rest.
Proof.
  induction 1 as [|o os Ho _ IH]; [reflexivity|].
  cbn [flat_map]. rewrite plus_as_space_app, <- app_assoc.
  unfold enc_octet at 1. destruct (N.eqb_spec o 32) as [->|Hne].
  - change (plus_as_space (lit "+")) with [32%N]. cbn [app].
    rewrite percent_decode_plain by discriminate. rewrite IH. reflexivity.
  - rewrite plus_as_space_octet, percent_decode_octet by assumption.
    rewrite IH. reflexivity.
Qed.

Lemma utf8_octets_bound (cp : N) : Forall (fun o => o < 256)%N (utf8_octets cp).
Proof.
  unfold utf8_octets.
  destruct (N.ltb_spec cp 128); [|destruct (N.ltb_spec cp 2048);
                                   [|destruct (N.ltb_spec cp 65536)]];
    repeat constructor; divmod_lia.
Qed.

Lemma utf8_octets_ascii (c : N) : (c < 128)%N -> utf8_octets c = [c].
Proof. intros H. unfold utf8_octets. apply N.ltb_lt in H. rewrite H. reflexivity. Qed.

(** Reading [+] as a space and percent-decoding undoes [enc], octet by
    octet. *)
Lemma Enc_decode (s e : jsstring) :
  Enc s e -> percent_decode (plus_as_space e) = utf8_encode s.
Proof.
  induction 1 as [|c s e Hc _ IH|c s e H0 H1 H2 _ IH|h l s e H1 H2 _ IH].
  - reflexivity.
  - destruct (unreserved_not_surrogate c Hc) as [E1 E2].
    destruct (unreserved_ascii c Hc) as (Ha & H37 & H43 & _).
    rewrite utf8_encode_unit, utf8_octets_ascii by assumption.
    rewrite plus_as_space_plain, percent_decode_plain by assumption.
    rewrite IH. reflexivity.
  - rewrite utf8_encode_unit by assumption.
    rewrite plus_as_space_app, decode_enc_octets by apply utf8_octets_bound.
    rewrite IH. reflexivity.
  - rewrite utf8_encode_pair by assumption.
    rewrite plus_as_space_app, decode_enc_octets by apply utf8_octets_bound.
    rewrite IH. reflexivity.
Qed.

Lemma enc_octet_no_amp (o : N) : Forall (fun c => c <> 38%N) (enc_octet o).
Proof.
  unfold enc_octet. destruct (N.eqb o 32).
  - repeat constructor. discriminate.
  - unfold percent_octet. repeat constructor.
    + discriminate.
    + destruct (hex_digit_cases (o / 16)) as [[-> _]|[-> _]]; divmod_lia.
    + destruct (hex_digit_cases (o mod 16)) as [[-> _]|[-> _]]; divmod_lia.
Qed.

(** What [enc] returns holds no [&]. *)
Lemma Enc_no_amp (s e : jsstring) : Enc s e -> Forall (fun c => c <> 38%N) e.
Proof.
  assert (Hos : forall os, Forall (fun c => c <> 38%N) (flat_map enc_octet os)).
  { induction os as [|o os IH]; [constructor|].
    cbn [flat_map]. apply Forall_app. split; [apply enc_octet_no_amp | exact IH]. }
  induction 1 as [|c s e Hc _ IH|c s e H0 H1 H2 _ IH|h l s e H1 H2 _ IH].
  - constructor.
  - constructor; [apply unreserved_ascii; assumption | exact IH].
  - apply Forall_app. split; [apply Hos | exact IH].
  - apply Forall_app. split; [apply Hos | exact IH].
Qed.

(* --------------------------------------------------------------------- *)
(** ** Well-formed strings and concatenation *)
(* --------------------------------------------------------------------- *)

Lemma Encoded_app_wf (a e b : jsstring) :
  Encoded a e -> isWellFormed (a ++ b) = isWellFormed b.
Proof.
  induction 1 as [|c s e Hc _ IH|c s e H0 H1 H2 _ IH|h l s e H0 H1 H2 _ IH];
    cbn [app].
  - reflexivity.
  - destruct (unreserved_not_surrogate c Hc) as [E1 E2].
    rewrite isWellFormed_unit; assumption.
  - rewrite isWellFormed_unit; assumption.
  - rewrite isWellFormed_pair; assumption.
Qed.

Lemma Encoded_app_utf8 (a e b : jsstring) :
  Encoded a e -> utf8_encode (a ++ b) = utf8_encode a ++ utf8_encode b.
Proof.
  induction 1 as [|c s e Hc _ IH|c s e H0 H1 H2 _ IH|h l s e H0 H1 H2 _ IH];
    cbn [app].
  - reflexivity.
  - destruct (unreserved_not_surrogate c Hc) as [E1 E2].
    rewrite !utf8_encode_unit, IH, app_assoc by assumption. reflexivity.
  - rewrite !utf8_encode_unit, IH, app_assoc by assumption. reflexivity.
  - rewrite !utf8_encode_pair, IH, app_assoc by assumption. reflexivity.
Qed.

Lemma isWellFormed_app (a b : jsstring) :
  isWellFormed a = true -> isWellFormed b = true -> isWellFormed (a ++ b) = true.
Proof.
  intros Ha Hb. destruct (encodeURIComponent_Some a Ha) as (e & _ & He).
  rewrite (Encoded_app_wf b He). exact Hb.
Qed.

Lemma utf8_encode_app (a b : jsstring) :
  isWellFormed a = true -> utf8_encode (a ++ b) = utf8_encode a ++ utf8_encode b.
Proof.
  intros Ha. destruct (encodeURIComponent_Some a Ha) as (e & _ & He).
  apply (Encoded_app_utf8 b He).
Qed.

(* --------------------------------------------------------------------- *)
(** ** The query of the address *)
(* --------------------------------------------------------------------- *)

Lemma cut_at_app (sep : code_unit) (a b : jsstring) :
  Forall (fun c => c <> sep) a -> cut_at sep (a ++ sep :: b) = (a, Some b).
Proof.
  induction 1 as [|c a Hc _ IH]; cbn [app cut_at].
  - rewrite N.eqb_refl. reflexivity.
  - apply N.eqb_neq in Hc. rewrite Hc, IH. reflexivity.
Qed.

Lemma split_on_none (sep : code_unit) (a : jsstring) :
  Forall (fun c => c <> sep) a -> split_on sep a = [a].
Proof.
  induction 1 as [|c a Hc _ IH]; cbn [split_on].
  - reflexivity.
  - apply N.eqb_neq in Hc. rewrite Hc, IH. reflexivity.
Qed.

Lemma split_on_app (sep : code_unit) (a b : jsstring) :
  Forall (fun c => c <> sep) a ->
  split_on sep (a ++ sep :: b) = a :: split_on sep b.
Proof.
  induction 1 as [|c a Hc _ IH]; cbn [app split_on].
  - rewrite N.eqb_refl. reflexivity.
  - apply N.eqb_neq in Hc. rewrite Hc, IH. reflexivity.
Qed.

Lemma Forall_neq_b (sep : code_unit) (a : jsstring) :
  forallb (fun c => negb (N.eqb c sep)) a = true -> Forall (fun c => c <> sep) a.
Proof.
  intros H. apply Forall_forall. intros c Hc.
  rewrite forallb_forall in H. specialize (H c Hc).
  apply negb_true_iff, N.eqb_neq in H. exact H.
Qed.

(** The [body] parameter of the address [buildMailto] writes for
    [to_address] is the encoded body. *)
Lemma query_param_body (es eb : jsstring) :
  Forall (fun c => c <> 38%N) es -> Forall (fun c => c <> 38%N) eb ->
  query_param (lit "body")
    (lit "mailto:" ++ to_address ++ lit "?subject=" ++ es ++ lit "&body=" ++ eb)
  = Some eb.
Proof.
  intros Hes Heb. unfold query_param.
  change (lit "mailto:" ++ to_address ++ lit "?subject=" ++ es ++ lit "&body=" ++ eb)
    with (lit "mailto:su96hwang@gmail.com"
          ++ ch "?" :: ((lit "subject=" ++ es) ++ ch "&" :: (lit "body=" ++ eb))).
  rewrite cut_at_app by (apply Forall_neq_b; reflexivity).
  cbn [snd].
  assert (Hamp : forall l x, Forall (fun c => c <> 38%N) x ->
                             forallb (fun c => negb (N.eqb c 38)) l = true ->
                             Forall (fun c => c <> ch "&") (l ++ x)).
  { intros l x Hx Hl. apply Forall_app. split; [apply Forall_neq_b|]; assumption. }
  rewrite split_on_app by (apply Hamp; [assumption | reflexivity]).
  rewrite split_on_none by (apply Hamp; [assumption | reflexivity]).
  cbn [flat_map].
  change (lit "subject=" ++ es) with (lit "subject" ++ ch "=" :: es).
  change (lit "body=" ++ eb) with (lit "body" ++ ch "=" :: eb).
  rewrite !cut_at_app by (apply Forall_neq_b; reflexivity).
  reflexivity.
Qed.

Lemma occurs_in_b_spec (needle hay : list N) :
  occurs_in needle hay -> occurs_in_b needle hay = true.
Proof.
  intros (pre & post & ->). induction pre as [|c pre IH].
  - cbn [app]. destruct (needle ++ post) eqn:E; cbn [occurs_in_b];
      rewrite <- E, startsWith_prefix; reflexivity.
  - cbn [app occurs_in_b]. rewrite IH. apply orb_true_r.
Qed.

(* --------------------------------------------------------------------- *)
(** ** The composed body *)
(* --------------------------------------------------------------------- *)

Lemma validate_None_message (f : ContactForm) :
  validate f = None -> message f <> [].
Proof.
  intros H Hm. unfold validate in H. rewrite Hm in H.
  change (is_empty (trim [])) with true in H. rewrite orb_true_r in H.
  discriminate.
Qed.

(** The body ends with the message; what precedes it is made of the other
    fields and literal text. *)
Lemma mail_body_message (f : ContactForm) :
  message f <> [] ->
  exists pre,
    mail_body f = pre ++ message f
    /\ (isWellFormed (name f) = true -> isWellFormed (email f) = true ->
        isWellFormed (budget f) = true -> isWellFormed (timeline f) = true ->
        isWellFormed pre = true).
Proof.
  intros Hm. unfold mail_body, mail_lines, filter_Boolean, if_truthy.
  destruct (message f) as [|m0 m] eqn:Em; [contradiction|].
  assert (Hlit : forall l, isWellFormed l = true -> forall x,
                   isWellFormed x = true -> isWellFormed (l ++ x ++ LF) = true).
  { intros l Hl x Hx. apply isWellFormed_app; [exact Hl|].
    apply isWellFormed_app; [exact Hx | reflexivity]. }
  destruct (budget f) as [|b0 b] eqn:Eb; destruct (timeline f) as [|t0 t] eqn:Et;
    cbn [flat_map is_empty app join].
  - exists ((lit "Name: " ++ name f ++ LF) ++ (lit "Email: " ++ email f ++ LF)).
    split.
    + cbn [lit list_ascii_of_string map app join is_empty].
      repeat (progress (cbn [app]; rewrite <- ?app_assoc)). reflexivity.
    + intros Hn He _ _. apply isWellFormed_app; apply Hlit; try assumption; reflexivity.
  - exists ((lit "Name: " ++ name f ++ LF) ++ (lit "Email: " ++ email f ++ LF)
            ++ (lit "Timeline: " ++ (t0 :: t) ++ LF)).
    split.
    + cbn [lit list_ascii_of_string map app join is_empty].
      repeat (progress (cbn [app]; rewrite <- ?app_assoc)). reflexivity.
    + intros Hn He _ Ht.
      repeat (apply isWellFormed_app; [apply Hlit; try assumption; reflexivity|]).
      apply Hlit; try assumption; reflexivity.
  - exists ((lit "Name: " ++ name f ++ LF) ++ (lit "Email: " ++ email f ++ LF)
            ++ (lit "Budget: " ++ (b0 :: b) ++ LF)).
    split.
    + cbn [lit list_ascii_of_string map app join is_empty].
      repeat (progress (cbn [app]; rewrite <- ?app_assoc)). reflexivity.
    + intros Hn He Hb _.
      repeat (apply isWellFormed_app; [apply Hlit; try assumption; reflexivity|]).
      apply Hlit; try assumption; reflexivity.
  - exists ((lit "Name: " ++ name f ++ LF) ++ (lit "Email: " ++ email f ++ LF)
            ++ (lit "Budget: " ++ (b0 :: b) ++ LF)
            ++ (lit "Timeline: " ++ (t0 :: t) ++ LF)).
    split.
    + cbn [lit list_ascii_of_string map app join is_empty].
      repeat (progress (cbn [app]; rewrite <- ?app_assoc)). reflexivity.
    + intros Hn He Hb Ht.
      repeat (apply isWellFormed_app; [apply Hlit; try assumption; reflexivity|]).
      apply Hlit; try assumption; reflexivity.
Qed.

(** On a valid, well-formed form [onSubmit] navigates to the address of
    [buildMailto], whose [body] parameter is the encoded body. *)
Lemma onSubmit_navigates (f : ContactForm) :
  validate f = None -> form_well_formed f = true ->
  exists es eb,
    onSubmit f
    = Navigate (lit "mailto:" ++ to_address ++ lit "?subject=" ++ es ++ lit "&body=" ++ eb)
    /\ Enc (mail_subject f) es /\ Enc (mail_body f) eb.
Proof.
  intros Hv Hwf. unfold form_well_formed in Hwf.
  repeat (apply andb_true_iff in Hwf; destruct Hwf as [Hwf ?]).
  destruct (mail_body_message f (validate_None_message f Hv)) as (pre & Hbody & Hpre).
  assert (Hs : isWellFormed (mail_subject f) = true)
    by (apply isWellFormed_app; [reflexivity | assumption]).
  assert (Hb : isWellFormed (mail_body f) = true)
    by (rewrite Hbody; apply isWellFormed_app; [apply Hpre|]; assumption).
  destruct (enc_wf _ Hs) as (es & Hes & Hencs).
  destruct (enc_wf _ Hb) as (eb & Heb & Hencb).
  exists es, eb. unfold onSubmit, buildMailto. rewrite Hv, Hes, Heb. auto.
Qed.

(** C7, as amended. For every form whose name, address and message are
    non-empty after trimming, whose address is well-formed, whose consent
    is given, and whose fields hold no unpaired surrogate, the submission
    hands over an address with the [mailto:] scheme; reading its [body]
    parameter back as a query value, with each [+] read as a space and
    each [%XX] as its octet, yields exactly the UTF-8 text of the composed
    body, which ends with the text of the message. *)
Theorem onSubmit_mail_roundtrip (f : ContactForm) :
  validate f = None -> form_well_formed f = true ->
  body_holds_message (fun eb => percent_decode (plus_as_space eb)) f
  /\ exists href eb pre,
       onSubmit f = Navigate href
       /\ startsWith href (lit "mailto:") = true
       /\ query_param (lit "body") href = Some eb
       /\ mail_body f = pre ++ message f
       /\ percent_decode (plus_as_space eb) = utf8_encode (mail_body f)
       /\ utf8_encode (mail_body f) = utf8_encode pre ++ utf8_encode (message f).
Proof.
  intros Hv Hwf.
  destruct (onSubmit_navigates f Hv Hwf) as (es & eb & Hnav & Hes & Heb).
  destruct (mail_body_message f (validate_None_message f Hv)) as (pre & Hbody & Hpre).
  assert (Hq : query_param (lit "body")
                 (lit "mailto:" ++ to_address ++ lit "?subject=" ++ es ++ lit "&body=" ++ eb)
               = Some eb)
    by (apply query_param_body; [apply (Enc_no_amp Hes) | apply (Enc_no_amp Heb)]).
  assert (Hsplit : utf8_encode (mail_body f) = utf8_encode pre ++ utf8_encode (message f)).
  { rewrite Hbody. apply utf8_encode_app.
    unfold form_well_formed in Hwf.
    repeat (apply andb_true_iff in Hwf; destruct Hwf as [Hwf ?]).
    apply Hpre; assumption. }
  split.
  - exists (lit "mailto:" ++ to_address ++ lit "?subject=" ++ es ++ lit "&body=" ++ eb), eb.
    split; [exact Hnav|]. split; [apply startsWith_prefix|]. split; [exact Hq|].
    exists (utf8_encode pre), []. rewrite app_nil_r, (Enc_decode Heb). exact Hsplit.
  - exists (lit "mailto:" ++ to_address ++ lit "?subject=" ++ es ++ lit "&body=" ++ eb),
      eb, pre.
    split; [exact Hnav|]. split; [apply startsWith_prefix|]. split; [exact Hq|].
    split; [exact Hbody|]. split; [apply (Enc_decode Heb) | exact Hsplit].
Qed.

Lemma onSubmit_mail_roundtrip_witness :
  body_holds_message (fun eb => percent_decode (plus_as_space eb))
    {| name := lit "Kim"; email := lit "kim@example.com"; budget := [];
       timeline := []; message := lit "a b"; agree := true |}.
Proof.
  apply (proj1 (onSubmit_mail_roundtrip
                  {| name := lit "Kim"; email := lit "kim@example.com"; budget := [];
                     timeline := []; message := lit "a b"; agree := true |}
                  eq_refl eq_refl)).
Defined.

(** C7 as stated fails as soon as the message holds a space. For the
    message ["a b"] the [body] parameter is
    [Name%3A+Kim%0AEmail%3A+kim%40example.com%0Aa+b]; percent-decoding
    leaves every [+] where it is, so the decoded body ends with ["a+b"] and
    does not contain ["a b"]. And for a message with an unpaired surrogate
    no address is produced at all. *)
Lemma onSubmit_percent_decoding_counterexample :
  validate {| name := lit "Kim"; email := lit "kim@example.com"; budget := [];
              timeline := []; message := lit "a b"; agree := true |} = None
  /\ onSubmit {| name := lit "Kim"; email := lit "kim@example.com"; budget := [];
                 timeline := []; message := lit "a b"; agree := true |}
     = Navigate (lit "mailto:su96hwang@gmail.com?subject=%5BPortfolio+Inquiry%5D+Kim&body=Name%3A+Kim%0AEmail%3A+kim%40example.com%0Aa+b")
  /\ percent_decode (lit "Name%3A+Kim%0AEmail%3A+kim%40example.com%0Aa+b")
     = lit "Name:+Kim" ++ LF ++ lit "Email:+kim@example.com" ++ LF ++ lit "a+b"
  /\ ~ body_holds_message percent_decode
         {| name := lit "Kim"; email := lit "kim@example.com"; budget := [];
            timeline := []; message := lit "a b"; agree := true |}
  /\ validate {| name := lit "Kim"; email := lit "kim@example.com"; budget := [];
                 timeline := []; message := [55296%N]; agree := true |} = None
  /\ onSubmit {| name := lit "Kim"; email := lit "kim@example.com"; budget := [];
                 timeline := []; message := [55296%N]; agree := true |}
     = ThrowsURIError.
Proof.
  split; [vm_compute; reflexivity|]. split; [vm_compute; reflexivity|].
  split; [vm_compute; reflexivity|]. split; [|split; vm_compute; reflexivity].
  intros (href & eb & Hnav & _ & Hq & Hocc).
  assert (E : onSubmit {| name := lit "Kim"; email := lit "kim@example.com"; budget := [];
                          timeline := []; message := lit "a b"; agree := true |}
              = Navigate (lit "mailto:su96hwang@gmail.com?subject=%5BPortfolio+Inquiry%5D+Kim&body=Name%3A+Kim%0AEmail%3A+kim%40example.com%0Aa+b"))
    by (vm_compute; reflexivity).
  rewrite E in Hnav. injection Hnav as <-.
  assert (Eq : query_param (lit "body")
                 (lit "mailto:su96hwang@gmail.com?subject=%5BPortfolio+Inquiry%5D+Kim&body=Name%3A+Kim%0AEmail%3A+kim%40example.com%0Aa+b")
               = Some (lit "Name%3A+Kim%0AEmail%3A+kim%40example.com%0Aa+b"))
    by (vm_compute; reflexivity).
  rewrite Eq in Hq. injection Hq as <-.
  apply occurs_in_b_spec in Hocc. vm_compute in Hocc. discriminate.
Qed.

(* ===================================================================== *)
(** * Further properties *)
(* ===================================================================== *)

Lemma keep_first_NoDup_id (l seen : list jsstring) :
  NoDup l -> (forall x, In x l -> ~ In x seen) -> keep_first seen l = l.
Proof.
  intros Hnd. revert seen. induction Hnd as [|x l Hx _ IH]; intros seen Hs; simpl.
  - reflexivity.
  - assert (E : Set_has seen x = false)
      by (apply Set_has_not_In; apply Hs; left; reflexivity).
    rewrite E. f_equal. apply IH. intros y Hy [<- | Hin].
    + contradiction.
    + apply (Hs y); [right|]; assumption.
Qed.

Lemma app_length_neq (a b p : jsstring) :
  List.length a <> List.length b -> a ++ p <> b ++ p.
Proof.
  intros Hl E. apply (f_equal (@List.length code_unit)) in E.
  rewrite !length_app in E. lia.
Qed.

(** The chain [assetChain] pushes never holds the same entry twice. *)
Lemma assetChain_raw_NoDup (env : document_env) (p : jsstring) :
  NoDup (assetChain_raw env p).
Proof.
  assert (Hlast : asset env p <> lit "/" ++ p).
  { unfold asset. destruct p as [|c p]; [discriminate|]. cbn [is_empty].
    destruct (regex_test http_re (c :: p) || startsWith (c :: p) (lit "/")).
    - apply (app_length_neq [] (lit "/") (c :: p)). discriminate.
    - destruct env as [| |h]; try (apply (app_length_neq (lit "/media/") (lit "/")); discriminate).
      rewrite app_assoc. apply app_length_neq. rewrite length_app.
      destruct (endsWith (or_slash h) (lit "/")); try rewrite length_app;
        simpl; lia. }
  unfold assetChain_raw.
  destruct (startsWith (asset env p) (lit "/media/")) eqn:E; cbn [negb app].
  - constructor; [|constructor; [intros []|constructor]].
    intros [H|[]]. apply Hlast. symmetry. exact H.
  - constructor; [|constructor; [|constructor; [intros []|constructor]]].
    + intros [H|[H|[]]].
      * rewrite <- H, startsWith_prefix in E. discriminate.
      * apply Hlast. symmetry. exact H.
    + intros [H|[]]. revert H. apply (app_length_neq (lit "/") (lit "/media/")).
      discriminate.
Qed.

(** The de-duplication of [assetChain] never removes an entry: the chain
    is the two or three entries pushed, in the order pushed. *)
Theorem assetChain_is_raw (env : document_env) (p : jsstring) :
  assetChain env p = assetChain_raw env p
  /\ (List.length (assetChain env p) = 2 \/ List.length (assetChain env p) = 3).
Proof.
  assert (E : assetChain env p = assetChain_raw env p).
  { unfold assetChain. rewrite Array_from_Set_keep_first.
    apply keep_first_NoDup_id; [apply assetChain_raw_NoDup | tauto]. }
  split; [exact E|]. rewrite E. unfold assetChain_raw.
  destruct (negb (startsWith (asset env p) (lit "/media/"))); [right | left]; reflexivity.
Qed.

(** The chains the page asks for under a base path ["/app/"]. *)
Lemma assetChain_examples :
  assetChain (Document (Some (lit "/app/"))) (lit "about.png")
  = [lit "/app/media/about.png"; lit "/media/about.png"; lit "/about.png"]
  /\ assetChain NoDocument (lit "about.png") = [lit "/media/about.png"; lit "/about.png"].
Proof. split; vm_compute; reflexivity. Qed.

(** After [k] load errors [SmartImg] shows candidate [k], or the last one
    when there are not that many. *)
Theorem SmartImg_after_errors (sources : list jsstring) (k : nat) :
  sources <> [] ->
  SmartImg_after sources k = Nat.min k (List.length sources - 1)
  /\ SmartImg_reachable sources (SmartImg_after sources k).
Proof.
  intros Hne. split.
  - apply SmartImg_after_min. exact Hne.
  - apply SmartImg_reachable_after. exists k. reflexivity.
Qed.

Lemma SmartImg_after_errors_witness :
  SmartImg_after [lit "/media/a.png"; lit "/a.png"] 5 = Nat.min 5 (2 - 1)
  /\ SmartImg_reachable [lit "/media/a.png"; lit "/a.png"]
       (SmartImg_after [lit "/media/a.png"; lit "/a.png"] 5).
Proof.
  apply (SmartImg_after_errors (sources := [lit "/media/a.png"; lit "/a.png"]) 5).
  discriminate.
Defined.

(** [s.trim()] is empty exactly when [s] is made of white space only. *)
Theorem trim_empty_iff_blank (s : jsstring) :
  is_empty (trim s) = true <-> forallb is_white_space s = true.
Proof.
  rewrite is_empty_nil, trim_nil, forallb_forall, Forall_forall. reflexivity.
Qed.

Section UniqueTags.

Variable T : Type.
Variable tags : T -> list jsstring.

Lemma uniqueTags_flat (items : list T) (acc : list jsstring) :
  fold_left (fun s it => fold_left Set_add (tags it) s) items acc
  = fold_left Set_add (flat_map tags items) acc.
Proof.
  revert acc. induction items as [|it items IH]; intros acc; simpl.
  - reflexivity.
  - rewrite fold_left_app. apply IH.
Qed.

(** [uniqueTags] returns every tag of every item, each once, in the order
    of first appearance. *)
Theorem uniqueTags_spec (items : list T) :
  NoDup (uniqueTags tags items)
  /\ (forall t, In t (uniqueTags tags items) <-> exists it, In it items /\ In t (tags it))
  /\ uniqueTags tags items = keep_first [] (flat_map tags items).
Proof.
  assert (E : uniqueTags tags items = keep_first [] (flat_map tags items)).
  { unfold uniqueTags. rewrite uniqueTags_flat. apply Array_from_Set_keep_first. }
  rewrite E. split; [apply keep_first_NoDup|]. split; [|reflexivity].
  intros t. rewrite keep_first_In, in_flat_map. simpl. tauto.
Qed.

End UniqueTags.

(** The test of the source: the tags of [[a, b]] and [[b, c]] are
    [a], [b], [c]. *)
Lemma uniqueTags_example :
  uniqueTags (fun it : list jsstring => it) [[lit "a"; lit "b"]; [lit "b"; lit "c"]]
  = [lit "a"; lit "b"; lit "c"].
Proof. vm_compute. reflexivity. Qed.

(* ===================================================================== *)
(** * Other parts of the page: properties *)
(* ===================================================================== *)

(** ** The list of failed assets *)

Lemma keep_first_length (l seen : list jsstring) :
  List.length (keep_first seen l) <= List.length l.
Proof.
  revert seen. induction l as [|x l IH]; intros seen; simpl.
  - lia.
  - destruct (Set_has seen x); [specialize (IH seen) | specialize (IH (x :: seen))];
      simpl; lia.
Qed.

Lemma assetErrors_keep_first (urls : list jsstring) :
  assetErrors_after urls = keep_first [] urls.
Proof. apply Array_from_Set_keep_first. Qed.

(** Whatever assets fail, and in whatever order, the list of failed assets
    holds each failed address once, in the order of first failure; marking
    an address that has failed before changes nothing. *)
Theorem markError_invariant (urls : list jsstring) :
  NoDup (assetErrors_after urls)
  /\ (forall u, In u (assetErrors_after urls) <-> In u urls)
  /\ assetErrors_after urls = keep_first [] urls
  /\ (forall u, In u urls -> markError (assetErrors_after urls) u = assetErrors_after urls)
  /\ List.length (assetErrors_after urls) <= List.length urls.
Proof.
  rewrite assetErrors_keep_first.
  split; [apply keep_first_NoDup|].
  assert (Hin : forall u, In u (keep_first [] urls) <-> In u urls).
  { intros u. rewrite keep_first_In. simpl. tauto. }
  split; [exact Hin|]. split; [reflexivity|]. split; [|apply keep_first_length].
  intros u Hu. unfold markError.
  replace (includes (keep_first [] urls) u) with true; [reflexivity|].
  symmetry. apply Set_has_In, Hin, Hu.
Qed.

(** ** Numbers *)

(** The radius [formatBlur] prints is a finite number that is neither
    negative nor [-0]; it is [px] itself for a finite positive [px], and
    for every other [px] (NaN, an infinity, zero or below) the result is
    that of [formatBlur(0)]. *)
Theorem formatBlur_floor (Number_toString : number -> jsstring) (px : number) :
  Number_isFinite (formatBlur_v px) = true
  /\ num_le num0 (formatBlur_v px) = true
  /\ formatBlur_v px <> S754_zero true
  /\ (Number_isFinite px = true -> num_lt num0 px = true -> formatBlur_v px = px)
  /\ (Number_isFinite px = false \/ num_le px num0 = true ->
      formatBlur Number_toString px = formatBlur Number_toString num0).
Proof.
  unfold formatBlur.
  destruct px as [s|s| |s m e]; try destruct s;
    repeat split; try reflexivity; try discriminate;
    try (intros [H|H]; try reflexivity; discriminate).
Qed.

(** [clamp01] applied twice is [clamp01]; its result is always a finite
    number, never [-0]. *)
Theorem clamp01_idempotent (v : number) :
  clamp01 (clamp01 v) = clamp01 v
  /\ Number_isFinite (clamp01 v) = true
  /\ clamp01 v <> S754_zero true.
Proof.
  destruct v as [s|s| |s m e]; try (destruct s; repeat split; (reflexivity || discriminate));
    try (repeat split; (reflexivity || discriminate)).
  destruct s; [repeat split; (reflexivity || discriminate)|].
  unfold clamp01 at 2 3 4 5. cbn [Number_isFinite].
  assert (Hmax : Math_max num0 (S754_finite false m e) = S754_finite false m e)
    by reflexivity.
  rewrite Hmax. unfold Math_min.
  destruct (SFcompare num1 (S754_finite false m e)) as [[| |]|] eqn:Hc;
    cbv iota; repeat split; try reflexivity; try discriminate.
  unfold clamp01. cbn [Number_isFinite]. rewrite Hmax. unfold Math_min.
  rewrite Hc. reflexivity.
Qed.

(** ** The asset resolver and its users *)

Lemma startsWith_app_l (s rest p : jsstring) :
  startsWith s p = true -> startsWith (s ++ rest) p = true.
Proof.
  rewrite !startsWith_app. intros [r ->]. exists (r ++ rest).
  rewrite app_assoc. reflexivity.
Qed.

(** A name that is neither empty, nor an [http(s)] address, nor rooted is
    put under the base path. *)
Lemma asset_prefixed (env : document_env) (p : jsstring) :
  p <> [] ->
  regex_test http_re p || startsWith p (lit "/") = false ->
  asset env p = with_trailing_slash (base_path env) ++ lit "media/" ++ p.
Proof.
  intros Hne H. unfold asset. destruct p as [|c p]; [contradiction|].
  cbn [is_empty]. rewrite H. destruct env; reflexivity.
Qed.

Lemma asset_passes (env : document_env) (p : jsstring) :
  regex_test http_re p || startsWith p (lit "/") = true -> asset env p = p.
Proof.
  intros H. unfold asset. destruct p as [|c p]; [reflexivity|].
  cbn [is_empty]. rewrite H. reflexivity.
Qed.

Lemma asset_nonempty (env : document_env) (p : jsstring) :
  p <> [] -> asset env p <> [].
Proof.
  intros Hne. destruct (regex_test http_re p || startsWith p (lit "/")) eqn:E.
  - rewrite asset_passes by assumption. exact Hne.
  - rewrite asset_prefixed by assumption. intros H.
    apply app_eq_nil in H. destruct H as [_ H]. discriminate.
Qed.

(** [asset] is idempotent whenever the base path is rooted or an
    [http(s)] address, and so whenever there is no [<base>] element: a
    resolved address is not prefixed again. *)
Theorem asset_idempotent (env : document_env) (p : jsstring) :
  startsWith (base_path env) (lit "/") = true
  \/ startsWith (base_path env) (lit "http://") = true
  \/ startsWith (base_path env) (lit "https://") = true ->
  asset env (asset env p) = asset env p.
Proof.
  intros Hb. destruct p as [|c p]; [reflexivity|].
  destruct (regex_test http_re (c :: p) || startsWith (c :: p) (lit "/")) eqn:E.
  - rewrite !(asset_passes env (c :: p) E). reflexivity.
  - rewrite (asset_prefixed env (p := c :: p)) by (discriminate || assumption).
    apply asset_passes. rewrite http_re_startsWith.
    assert (Hw : forall pre, startsWith (base_path env) pre = true ->
                 startsWith (with_trailing_slash (base_path env) ++ lit "media/" ++ c :: p) pre
                 = true).
    { intros pre H. apply startsWith_app_l. unfold with_trailing_slash.
      destruct (endsWith (base_path env) (lit "/")); [|apply startsWith_app_l]; exact H. }
    destruct Hb as [H | [H | H]]; rewrite (Hw _ H); rewrite ?orb_true_r; reflexivity.
Qed.

Lemma asset_idempotent_witness :
  asset (Document (Some (lit "/app"))) (asset (Document (Some (lit "/app"))) (lit "hero.mp4"))
  = asset (Document (Some (lit "/app"))) (lit "hero.mp4").
Proof.
  apply (asset_idempotent (Document (Some (lit "/app"))) (lit "hero.mp4")).
  left. reflexivity.
Defined.

(** Under a relative base path a second call prefixes again. *)
Lemma asset_relative_base_example :
  asset (Document (Some (lit "app/"))) (asset (Document (Some (lit "app/"))) (lit "a.png"))
  = lit "app/media/app/media/a.png".
Proof. vm_compute. reflexivity. Qed.

(** The logo overlay is enabled for [asset(name)] exactly when the name is
    not empty, whatever the host; blending is used exactly otherwise, and
    for a missing source. *)
Theorem logo_overlay_of_asset (env : document_env) (p : jsstring) :
  isLogoOverlayEnabled (Some (asset env p)) = negb (is_empty p)
  /\ shouldUseBlend (Some (asset env p)) = is_empty p
  /\ shouldUseBlend None = true.
Proof.
  assert (H : isLogoOverlayEnabled (Some (asset env p)) = negb (is_empty p)).
  { destruct p as [|c p]; [reflexivity|].
    pose proof (@asset_nonempty env (c :: p)) as Hn.
    destruct (asset env (c :: p)); [exfalso; apply Hn; [discriminate | reflexivity]|].
    reflexivity. }
  split; [exact H|]. split; [|reflexivity].
  unfold shouldUseBlend. rewrite H. apply negb_involutive.
Qed.

(** ** Filtering the works *)

Section FilterFacts.

Variable T : Type.
Variable tags : T -> list jsstring.

Lemma filter_twice (f g : T -> bool) (l : list T) :
  filter f (filter g l) = filter (fun x => g x && f x) l.
Proof.
  induction l as [|x l IH]; simpl; [reflexivity|].
  destruct (g x); simpl; [destruct (f x)|]; rewrite IH; reflexivity.
Qed.

Lemma filterByTag_filter (items : list T) (tag : jsstring) :
  filterByTag tags items tag
  = filter (fun it => is_empty tag || str_eqb tag (lit "All") || includes (tags it) tag)
           items.
Proof.
  unfold filterByTag. destruct (is_empty tag || str_eqb tag (lit "All")); simpl.
  - symmetry. apply forallb_filter_id. apply forallb_forall. reflexivity.
  - reflexivity.
Qed.

(** Filtering by a tag twice is filtering once, filtering by two tags does
    not depend on their order, and a filter never lengthens the list. *)
Theorem filterByTag_compose (items : list T) (a b : jsstring) :
  filterByTag tags (filterByTag tags items a) a = filterByTag tags items a
  /\ filterByTag tags (filterByTag tags items a) b
     = filterByTag tags (filterByTag tags items b) a
  /\ List.length (filterByTag tags items a) <= List.length items.
Proof.
  rewrite !filterByTag_filter, !filter_twice. split; [|split].
  - apply filter_ext. intros x. apply andb_diag.
  - apply filter_ext. intros x. apply andb_comm.
  - apply filter_length_le.
Qed.

Lemma uniqueTags_In (items : list T) (t : jsstring) :
  In t (uniqueTags tags items) <-> exists it, In it items /\ In t (tags it).
Proof.
  unfold uniqueTags. rewrite uniqueTags_flat.
  change (fold_left Set_add (flat_map tags items) []) with (Array_from_Set (flat_map tags items)).
  rewrite Array_from_Set_keep_first, keep_first_In, in_flat_map. simpl. tauto.
Qed.

(** Every tag that [uniqueTags] lists selects at least one item, and a tag
    it does not list (other than the empty one and ["All"]) selects none:
    the chips built from [uniqueTags] never lead to an empty grid. *)
Theorem uniqueTags_filterByTag (items : list T) (t : jsstring) :
  (In t (uniqueTags tags items) -> filterByTag tags items t <> [])
  /\ (~ In t (uniqueTags tags items) -> t <> [] -> t <> lit "All" ->
      filterByTag tags items t = []).
Proof.
  rewrite uniqueTags_In, filterByTag_filter. split.
  - intros (it & Hit & Ht) E.
    assert (Hin : In it (filter (fun it0 => is_empty t || str_eqb t (lit "All")
                                             || includes (tags it0) t) items)).
    { apply filter_In. split; [exact Hit|].
      apply orb_true_iff. right. apply includes_In. exact Ht. }
    rewrite E in Hin. destruct Hin.
  - intros Hno Hne Hall.
    destruct t as [|c t]; [contradiction|].
    apply str_eqb_neq in Hall. cbn [is_empty orb]. rewrite Hall. cbn [orb].
    induction items as [|x l IH]; [reflexivity|]. simpl.
    destruct (includes (tags x) (c :: t)) eqn:E.
    + exfalso. apply Hno. exists x. split; [left; reflexivity | apply includes_In; exact E].
    + apply IH. intros (it & Hit & Ht). apply Hno. exists it. split; [right|]; assumption.
Qed.

(** The grid of the page (which tests the tag against ["All"] only) shows
    what [filterByTag] returns, for every tag but the empty one. *)
Theorem filteredWorks_filterByTag (WORKS : list T) (activeTag : jsstring) :
  activeTag <> [] ->
  filteredWorks tags WORKS activeTag = filterByTag tags WORKS activeTag.
Proof.
  intros Hne. unfold filteredWorks, filterByTag.
  destruct activeTag as [|c t]; [contradiction | reflexivity].
Qed.

End FilterFacts.

Lemma filteredWorks_filterByTag_witness :
  filteredWorks (fun it : list jsstring => it)
    [[lit "reality"]; [lit "performance"; lit "reality"]] (lit "performance")
  = filterByTag (fun it : list jsstring => it)
      [[lit "reality"]; [lit "performance"; lit "reality"]] (lit "performance").
Proof.
  apply (filteredWorks_filterByTag (fun it : list jsstring => it)
           [[lit "reality"]; [lit "performance"; lit "reality"]]
           (activeTag := lit "performance")).
  discriminate.
Defined.

(** On the empty tag the two differ: the grid keeps the items tagged with
    the empty string, [filterByTag] keeps everything. *)
Lemma filteredWorks_empty_tag_example :
  filteredWorks (fun it : list jsstring => it) [[lit "reality"]; [[]]] []
  = [[[]]]
  /\ filterByTag (fun it : list jsstring => it) [[lit "reality"]; [[]]] []
     = [[lit "reality"]; [[]]].
Proof. split; reflexivity. Qed.

(** ** Media types of the fallback chain *)

(** The tests of [mimeFrom], on the lower-cased address. *)
Lemma mimeFrom_unfold (toLowerCase : jsstring -> jsstring) (url : jsstring) :
  mimeFrom toLowerCase url
  = if endsWith (toLowerCase url) (lit ".webm") then Some (lit "video/webm")
    else if endsWith (toLowerCase url) (lit ".mp4") then Some (lit "video/mp4")
    else if endsWith (toLowerCase url) (lit ".jpg") || endsWith (toLowerCase url) (lit ".jpeg")
         then Some (lit "image/jpeg")
    else if endsWith (toLowerCase url) (lit ".png") then Some (lit "image/png")
    else None.
Proof. reflexivity. Qed.

(** No string ends with two of the extensions that stand for different
    types. *)
Lemma extensions_exclusive (u : jsstring) :
  (endsWith u (lit ".webm") = true ->
   endsWith u (lit ".mp4") = false /\ endsWith u (lit ".jpg") = false
   /\ endsWith u (lit ".jpeg") = false /\ endsWith u (lit ".png") = false)
  /\ (endsWith u (lit ".mp4") = true ->
      endsWith u (lit ".jpg") = false /\ endsWith u (lit ".jpeg") = false
      /\ endsWith u (lit ".png") = false)
  /\ (endsWith u (lit ".jpg") = true \/ endsWith u (lit ".jpeg") = true ->
      endsWith u (lit ".png") = false).
Proof.
  unfold endsWith.
  change (rev (lit ".webm")) with [109; 98; 101; 119; 46]%N.
  change (rev (lit ".mp4")) with [52; 112; 109; 46]%N.
  change (rev (lit ".jpg")) with [103; 112; 106; 46]%N.
  change (rev (lit ".jpeg")) with [103; 101; 112; 106; 46]%N.
  change (rev (lit ".png")) with [103; 110; 112; 46]%N.
  generalize (rev u) as r. intros r.
  destruct r as [|c1 [|c2 r]]; cbn [startsWith]; repeat split; intros;
    repeat match goal with
           | H : _ \/ _ |- _ => destruct H
           | H : _ && _ = true |- _ => apply andb_true_iff in H; destruct H
           | H : N.eqb _ _ = true |- _ => apply N.eqb_eq in H; subst
           end;
    try discriminate; reflexivity.
Qed.

(** [mimeFrom] answers with a type exactly on the extensions of that type,
    and with [undefined] exactly when the lower-cased address ends with none
    of them: the order of its tests plays no part. *)
Theorem mimeFrom_exact (toLowerCase : jsstring -> jsstring) (url : jsstring) :
  (mimeFrom toLowerCase url = Some (lit "video/webm")
   <-> endsWith (toLowerCase url) (lit ".webm") = true)
  /\ (mimeFrom toLowerCase url = Some (lit "video/mp4")
      <-> endsWith (toLowerCase url) (lit ".mp4") = true)
  /\ (mimeFrom toLowerCase url = Some (lit "image/jpeg")
      <-> endsWith (toLowerCase url) (lit ".jpg") = true
          \/ endsWith (toLowerCase url) (lit ".jpeg") = true)
  /\ (mimeFrom toLowerCase url = Some (lit "image/png")
      <-> endsWith (toLowerCase url) (lit ".png") = true)
  /\ (mimeFrom toLowerCase url = None
      <-> endsWith (toLowerCase url) (lit ".webm") = false
          /\ endsWith (toLowerCase url) (lit ".mp4") = false
          /\ endsWith (toLowerCase url) (lit ".jpg") = false
          /\ endsWith (toLowerCase url) (lit ".jpeg") = false
          /\ endsWith (toLowerCase url) (lit ".png") = false).
Proof.
  rewrite mimeFrom_unfold.
  destruct (extensions_exclusive (toLowerCase url)) as (Hw & Hm & Hj).
  destruct (endsWith (toLowerCase url) (lit ".webm")) eqn:Ew;
    [destruct (Hw eq_refl) as (-> & -> & -> & ->)|];
    [|destruct (endsWith (toLowerCase url) (lit ".mp4")) eqn:Em;
      [destruct (Hm eq_refl) as (-> & -> & ->)|]];
    [| |destruct (endsWith (toLowerCase url) (lit ".jpg")) eqn:Ej;
        [rewrite (Hj (or_introl eq_refl))|]];
    [| | |destruct (endsWith (toLowerCase url) (lit ".jpeg")) eqn:Ee;
          [rewrite (Hj (or_intror eq_refl))
          |destruct (endsWith (toLowerCase url) (lit ".png")) eqn:Ep]];
    cbn [orb]; repeat split; intros;
    repeat match goal with
           | H : _ /\ _ |- _ => destruct H
           | H : _ \/ _ |- _ => destruct H
           end;
    try reflexivity; try discriminate;
    try match goal with
        | H : Some _ = Some _ |- _ => vm_compute in H; discriminate
        end;
    try (left; reflexivity); right; reflexivity.
Qed.

Lemma startsWith_app_sep (sep : code_unit) (e y r : jsstring) :
  Forall (fun c => c <> sep) e -> startsWith (y ++ sep :: r) e = startsWith y e.
Proof.
  intros He. revert y. induction He as [|c e Hc _ IH]; intros y; [reflexivity|].
  destruct y as [|d y]; cbn [app startsWith].
  - apply not_eq_sym, N.eqb_neq in Hc. rewrite Hc. reflexivity.
  - rewrite IH. reflexivity.
Qed.

(** What follows a [/] decides alone whether an address ends with an
    extension that holds no [/]. *)
Lemma endsWith_after_slash (a y ext : jsstring) :
  Forall (fun c => c <> ch "/") ext ->
  endsWith ((a ++ [ch "/"]) ++ y) ext = endsWith y ext.
Proof.
  intros He. unfold endsWith. rewrite !rev_app_distr. cbn [rev app].
  apply startsWith_app_sep. apply Forall_rev. exact He.
Qed.

Lemma is_ascii_b (s : jsstring) :
  forallb (fun c => c <? 128)%N s = true -> is_ascii s.
Proof.
  intros H. apply Forall_forall. intros c Hc. rewrite forallb_forall in H.
  apply N.ltb_lt. apply H. exact Hc.
Qed.

(** Every entry of the chain is the name behind nothing, or behind a
    prefix that ends with [/]. *)
Lemma assetChain_entries (env : document_env) (p u : jsstring) :
  In u (assetChain env p) ->
  exists a, u = a ++ p
            /\ (a = [] \/ exists a', a = a' ++ [ch "/"])
            /\ (is_ascii (base_path env) -> is_ascii a).
Proof.
  unfold assetChain. rewrite Array_from_Set_keep_first, keep_first_In.
  intros [Hin _].
  assert (Hasset : exists a, asset env p = a ++ p
                             /\ (a = [] \/ exists a', a = a' ++ [ch "/"])
                             /\ (is_ascii (base_path env) -> is_ascii a)).
  { destruct (regex_test http_re p || startsWith p (lit "/")) eqn:E.
    - exists []. rewrite asset_passes by assumption.
      split; [reflexivity|]. split; [left; reflexivity | constructor].
    - destruct p as [|c p].
      + exists []. split; [reflexivity|]. split; [left; reflexivity | constructor].
      + exists (with_trailing_slash (base_path env) ++ lit "media/").
        rewrite asset_prefixed by (discriminate || assumption).
        split; [rewrite <- app_assoc; reflexivity|]. split.
        * right. exists (with_trailing_slash (base_path env) ++ lit "media").
          rewrite <- app_assoc. reflexivity.
        * intros Hb. apply Forall_app. split; [|apply is_ascii_b; reflexivity].
          unfold with_trailing_slash.
          destruct (endsWith (base_path env) (lit "/")); [exact Hb|].
          apply Forall_app. split; [exact Hb | apply is_ascii_b; reflexivity]. }
  assert (Hlit : forall l, forallb (fun c => c <? 128)%N (l ++ [ch "/"]) = true ->
                           exists a, (l ++ [ch "/"]) ++ p = a ++ p
                                     /\ (a = [] \/ exists a', a = a' ++ [ch "/"])
                                     /\ (is_ascii (base_path env) -> is_ascii a)).
  { intros l Hl. exists (l ++ [ch "/"]). split; [reflexivity|].
    split; [right; exists l; reflexivity | intros _; apply is_ascii_b; exact Hl]. }
  unfold assetChain_raw in Hin.
  destruct (negb (startsWith (asset env p) (lit "/media/"))); cbn [app In] in Hin.
  - destruct Hin as [<- | [<- | [<- | []]]].
    + exact Hasset.
    + apply (Hlit (lit "/media")). reflexivity.
    + apply (Hlit []). reflexivity.
  - destruct Hin as [<- | [<- | []]].
    + exact Hasset.
    + apply (Hlit []). reflexivity.
Qed.

(** Every candidate of the fallback chain of a name gets the media type of
    the name itself, for an ASCII name under an ASCII base path: the
    [<source>] elements made from [assetChain(name)] all carry one [type]. *)
Theorem mimeFrom_assetChain (toLowerCase : jsstring -> jsstring)
        (env : document_env) (p u : jsstring) :
  lowers_ascii toLowerCase ->
  is_ascii p -> is_ascii (base_path env) ->
  In u (assetChain env p) ->
  mimeFrom toLowerCase u = mimeFrom toLowerCase p.
Proof.
  intros Hlow Hp Hb Hu.
  destruct (assetChain_entries env p u Hu) as (a & -> & Ha & Hascii).
  specialize (Hascii Hb).
  destruct Ha as [-> | [a' ->]]; [reflexivity|].
  assert (Hall : is_ascii ((a' ++ [ch "/"]) ++ p))
    by (apply Forall_app; split; assumption).
  rewrite !mimeFrom_unfold, (Hlow _ Hall), (Hlow _ Hp).
  rewrite !map_app. cbn [map].
  change (ascii_lower (ch "/")) with (ch "/").
  rewrite !endsWith_after_slash by (apply Forall_neq_b; reflexivity).
  reflexivity.
Qed.

Lemma mimeFrom_assetChain_witness :
  mimeFrom (map ascii_lower) (lit "/media/Logo.WEBM")
  = mimeFrom (map ascii_lower) (lit "Logo.WEBM").
Proof.
  apply (mimeFrom_assetChain (toLowerCase := map ascii_lower)
           (Document (Some (lit "/app/"))) (p := lit "Logo.WEBM")).
  - intros s _. reflexivity.
  - apply is_ascii_b. reflexivity.
  - apply is_ascii_b. reflexivity.
  - right. left. reflexivity.
Defined.

(** ** The name behind a thumbnail *)

Lemma longest_match_sound (r : regex) (s : jsstring) (n : nat) :
  longest_match r s = Some n -> n <= List.length s /\ Matches r (firstn n s).
Proof.
  revert r n. induction s as [|c s IH]; intros r n; cbn [longest_match].
  - destruct (nullable r) eqn:E; [|discriminate]. intros [= <-].
    split; [apply Nat.le_refl | apply nullable_Matches; exact E].
  - destruct (longest_match (deriv c r) s) as [k|] eqn:Ek.
    + intros [= <-]. destruct (IH _ _ Ek) as [Hk Hm]. split; [simpl; lia|].
      cbn [firstn]. apply deriv_Matches. exact Hm.
    + destruct (nullable r) eqn:E; [|discriminate]. intros [= <-].
      split; [simpl; lia | apply nullable_Matches; exact E].
Qed.

Lemma longest_match_max (r : regex) (s : jsstring) (n : nat) :
  n <= List.length s -> Matches r (firstn n s) ->
  (forall m, n < m <= List.length s -> ~ Matches r (firstn m s)) ->
  longest_match r s = Some n.
Proof.
  revert r n. induction s as [|c s IH]; intros r n Hn Hm Hmax; cbn [longest_match].
  - simpl in Hn. assert (n = 0) by lia. subst n.
    apply nullable_Matches in Hm. rewrite Hm. reflexivity.
  - destruct n as [|n].
    + destruct (longest_match (deriv c r) s) as [k|] eqn:Ek.
      * destruct (longest_match_sound _ _ Ek) as [Hk Hmk].
        exfalso. apply (Hmax (S k)); [simpl; lia|].
        cbn [firstn]. apply deriv_Matches. exact Hmk.
      * apply nullable_Matches in Hm. rewrite Hm. reflexivity.
    + rewrite (IH (deriv c r) n); [reflexivity | simpl in Hn; lia | |].
      * apply deriv_Matches. exact Hm.
      * intros m Hlt Hmm. apply (Hmax (S m)); [simpl; lia|].
        cbn [firstn]. apply deriv_Matches. exact Hmm.
Qed.

(** A matching prefix that no longer prefix beats is the one replaced. *)
Lemma replace_prefix_longest (r : regex) (a b : jsstring) :
  Matches r a ->
  (forall q rest, q <> [] -> b = q ++ rest -> ~ Matches r (a ++ q)) ->
  replace_prefix r [] (a ++ b) = b.
Proof.
  intros Ha Hmax. unfold replace_prefix.
  rewrite (@longest_match_max r (a ++ b) (List.length a)).
  - cbn [app]. rewrite skipn_app, Nat.sub_diag, skipn_all. reflexivity.
  - rewrite length_app. lia.
  - rewrite firstn_app, Nat.sub_diag, firstn_all, app_nil_r. exact Ha.
  - intros m [Hlt Hle]. rewrite length_app in Hle.
    rewrite firstn_app, firstn_all2 by lia.
    apply (Hmax (firstn (m - List.length a) b) (skipn (m - List.length a) b)).
    + intros E. apply (f_equal (@List.length code_unit)) in E.
      rewrite length_firstn in E. simpl in E. lia.
    + symmetry. apply firstn_skipn.
Qed.

(** Where no prefix matches, nothing is replaced. *)
Lemma replace_prefix_none (r : regex) (rep s : jsstring) :
  (forall q rest, s = q ++ rest -> ~ Matches r q) -> replace_prefix r rep s = s.
Proof.
  intros Hno. unfold replace_prefix.
  destruct (longest_match r s) as [n|] eqn:E; [|reflexivity].
  destruct (longest_match_sound _ _ E) as [_ Hm].
  exfalso. apply (Hno (firstn n s) (skipn n s)); [|exact Hm].
  symmetry. apply firstn_skipn.
Qed.

Lemma Matches_up_to_media (s : jsstring) :
  Matches up_to_media_re s
  <-> exists a, s = a ++ lit "media/"
                /\ Forall (fun c => is_line_terminator c = false) a.
Proof.
  unfold up_to_media_re, RDot. split.
  - intros H. apply Matches_seq_inv in H. destruct H as (a & l & -> & Ha & Hl).
    apply Matches_RLit in Hl. subst l. apply Matches_star_class in Ha.
    exists a. split; [reflexivity|].
    apply Forall_forall. intros c Hc. rewrite Forall_forall in Ha.
    apply negb_true_iff. apply Ha. exact Hc.
  - intros (a & -> & Ha). constructor; [|apply Matches_RLit; reflexivity].
    apply Matches_star_class. apply Forall_forall. intros c Hc.
    rewrite Forall_forall in Ha. apply negb_true_iff. apply Ha. exact Hc.
Qed.

(** [media/] ends no string made of [media/] and a proper, non-empty
    start of it. *)
Lemma media_no_overlap (x a l q : jsstring) :
  x ++ lit "media/" = a ++ l -> lit "media/" = l ++ q -> q <> [] -> l = [].
Proof.
  intros Hx Hl Hq. apply (f_equal (@rev code_unit)) in Hx.
  rewrite !rev_app_distr in Hx.
  change (rev (lit "media/")) with [47; 97; 105; 100; 101; 109]%N in Hx.
  change (lit "media/") with [109; 101; 100; 105; 97; 47]%N in Hl.
  destruct l as [|l1 [|l2 [|l3 [|l4 [|l5 [|l6 l]]]]]]; [reflexivity| | | | | | ];
    cbn [app] in Hl; injection Hl as <-; intros; subst;
    try (cbn [rev app] in Hx; discriminate).
  exfalso. apply Hq.
  match goal with
  | H : [] = _ ++ q |- _ => symmetry in H; apply app_eq_nil in H; apply H
  end.
Qed.

(** For a relative name that holds no [media/], under a base path of one
    line, stripping the thumbnail address gives the name back; so the
    sources of the work's image are the fallback chain of the name. *)
Theorem thumb_name_asset (env : document_env) (p : jsstring) :
  startsWith p (lit "/") = false ->
  startsWith p (lit "http://") = false -> startsWith p (lit "https://") = false ->
  ~ occurs_in (lit "media/") p ->
  Forall (fun c => is_line_terminator c = false) (base_path env) ->
  thumb_name (asset env p) = p
  /\ work_sources env p = assetChain env p.
Proof.
  intros Hslash Hhttp Hhttps Hmedia Hbase.
  assert (E : thumb_name (asset env p) = p);
    [|split; [exact E | unfold work_sources; rewrite E; reflexivity]].
  assert (Hstrip : replace_prefix leading_slash_re [] p = p).
  { apply replace_prefix_none. intros q rest -> Hq.
    apply Matches_RChar in Hq. subst q. discriminate. }
  destruct p as [|c p]; [reflexivity|].
  unfold thumb_name.
  rewrite asset_prefixed
    by (discriminate || (rewrite http_re_startsWith, Hslash, Hhttp, Hhttps; reflexivity)).
  rewrite app_assoc, replace_prefix_longest; [exact Hstrip | |].
  - apply Matches_up_to_media. eexists. split; [reflexivity|].
    unfold with_trailing_slash. destruct (endsWith (base_path env) (lit "/")); [exact Hbase|].
    apply Forall_app. split; [exact Hbase | repeat constructor].
  - intros q rest Hq Hp Hm. apply Matches_up_to_media in Hm.
    destruct Hm as (a & Heq & _). apply app_eq_app in Heq.
    destruct Heq as (l & [[Hx Hl] | [_ Hl]]).
    + assert (l = []) by (apply (media_no_overlap _ _ _ Hx Hl Hq)). subst l.
      apply Hmedia. exists [], rest. rewrite Hp. cbn [app] in Hl |- *.
      rewrite <- Hl. reflexivity.
    + apply Hmedia. exists l, rest. rewrite Hp, Hl, <- app_assoc. reflexivity.
Qed.

Lemma thumb_name_asset_witness :
  thumb_name (asset (Document (Some (lit "/app/"))) (lit "works/box.png"))
  = lit "works/box.png"
  /\ work_sources (Document (Some (lit "/app/"))) (lit "works/box.png")
     = assetChain (Document (Some (lit "/app/"))) (lit "works/box.png").
Proof.
  apply (thumb_name_asset (Document (Some (lit "/app/"))) (p := lit "works/box.png"));
    try reflexivity.
  - intros H. apply occurs_in_b_spec in H. discriminate.
  - apply Forall_forall. intros c Hc.
    assert (Hb : forallb (fun c => negb (is_line_terminator c)) (lit "/app/") = true)
      by reflexivity.
    rewrite forallb_forall in Hb. apply negb_true_iff. apply Hb. exact Hc.
Defined.

(** A name that holds [media/] does not come back: the image of such a
    work is looked for under the wrong name. *)
Lemma thumb_name_media_example :
  thumb_name (asset NoDocument (lit "media/x.png")) = lit "x.png"
  /\ work_sources NoDocument (lit "media/x.png") = [lit "/media/x.png"; lit "/x.png"]
  /\ assetChain NoDocument (lit "media/x.png")
     = [lit "/media/media/x.png"; lit "/media/x.png"].
Proof. repeat split; vm_compute; reflexivity. Qed.

(** ** The parameters of the mail address *)

Lemma enc_Some_Enc (s e : jsstring) : enc s = Some e -> Enc s e.
Proof.
  unfold enc. intros H. pose proof (encodeURIComponent_cases s) as Hc.
  destruct (encodeURIComponent s) as [e0|]; [|discriminate].
  injection H as <-. apply Encoded_replace. apply Hc.
Qed.

Lemma enc_None_iff (s : jsstring) : enc s = None <-> isWellFormed s = false.
Proof.
  unfold enc. pose proof (encodeURIComponent_cases s) as Hc.
  destruct (encodeURIComponent s) as [e0|]; simpl; split; intros H;
    try discriminate; try reflexivity; try assumption.
  destruct Hc. congruence.
Qed.




(** [to] itself is written as it is: a [?] in it moves the query. *)
Lemma buildMailto_to_example :
  buildMailto (lit "x@y.z?body=no") (lit "s") (lit "b")
  = Some (lit "mailto:x@y.z?body=no?subject=s&body=b")
  /\ query_param (lit "body") (lit "mailto:x@y.z?body=no?subject=s&body=b")
     = Some (lit "no?subject=s").
Proof. split; vm_compute; reflexivity. Qed.

Lemma hex_digit_unreserved (n : N) : (n < 16)%N -> is_unreserved (hex_digit n) = true.
Proof.
  intros Hn. destruct (hex_digit_cases n) as [[-> H]|[-> H]]; units_lia.
Qed.

Lemma enc_octet_stable (o : N) (rest : jsstring) :
  replace_global (lit "%20") (lit "+") (enc_octet o ++ rest)
  = enc_octet o ++ replace_global (lit "%20") (lit "+") rest.
Proof.
  unfold enc_octet at 1. destruct (N.eqb_spec o 32) as [->|Ho].
  - change (lit "+" ++ rest) with (43%N :: rest).
    rewrite replace_plain by discriminate. reflexivity.
  - apply replace_percent_octet.
Qed.

Lemma enc_octets_stable (os : list N) (rest : jsstring) :
  replace_global (lit "%20") (lit "+") (flat_map enc_octet os ++ rest)
  = flat_map enc_octet os ++ replace_global (lit "%20") (lit "+") rest.
Proof.
  induction os as [|o os IH]; [reflexivity|].
  cbn [flat_map]. rewrite <- !app_assoc, enc_octet_stable, IH. reflexivity.
Qed.

Lemma enc_octets_alphabet (os : list N) :
  Forall (fun o => o < 256)%N os ->
  Forall (fun c => is_unreserved c = true \/ c = ch "+" \/ c = ch "%")
         (flat_map enc_octet os).
Proof.
  induction 1 as [|o os Ho _ IH]; [constructor|].
  cbn [flat_map]. apply Forall_app. split; [|exact IH].
  unfold enc_octet. destruct (N.eqb o 32).
  - apply Forall_cons; [|apply Forall_nil]. right. left. reflexivity.
  - unfold percent_octet. repeat apply Forall_cons; [| | |apply Forall_nil].
    + right. right. reflexivity.
    + left. apply hex_digit_unreserved. divmod_lia.
    + left. apply hex_digit_unreserved. divmod_lia.
Qed.

(** What [enc] writes is made of unreserved ASCII characters, [+] and [%]
    only (so of no space, [&], [=], [?] or [#]), and it holds no [%20]:
    replacing [%20] once more changes nothing. *)
Theorem enc_alphabet (s e : jsstring) :
  enc s = Some e ->
  Forall (fun c => is_unreserved c = true \/ c = ch "+" \/ c = ch "%") e
  /\ is_ascii e
  /\ replace_global (lit "%20") (lit "+") e = e.
Proof.
  intros H. apply enc_Some_Enc in H.
  assert (Ha : Forall (fun c => is_unreserved c = true \/ c = ch "+" \/ c = ch "%") e).
  { induction H as [|c s e Hc _ IH|c s e H0 H1 H2 _ IH|h l s e H1 H2 _ IH].
    - constructor.
    - constructor; [left; exact Hc | exact IH].
    - apply Forall_app. split; [|exact IH].
      apply enc_octets_alphabet, utf8_octets_bound.
    - apply Forall_app. split; [|exact IH].
      apply enc_octets_alphabet, utf8_octets_bound. }
  split; [exact Ha|]. split.
  - apply Forall_forall. intros c Hc. rewrite Forall_forall in Ha.
    destruct (Ha c Hc) as [Hu | [-> | ->]]; [|reflexivity|reflexivity].
    apply unreserved_ascii. exact Hu.
  - induction H as [|c s e Hc _ IH|c s e H0 H1 H2 _ IH|h l s e H1 H2 _ IH].
    + reflexivity.
    + rewrite replace_plain by (apply unreserved_ascii; exact Hc).
      rewrite IH; [reflexivity|]. inversion Ha; assumption.
    + rewrite enc_octets_stable, IH; [reflexivity|].
      apply Forall_app in Ha. apply Ha.
    + rewrite enc_octets_stable, IH; [reflexivity|].
      apply Forall_app in Ha. apply Ha.
Qed.

Lemma enc_alphabet_witness :
  Forall (fun c => is_unreserved c = true \/ c = ch "+" \/ c = ch "%")
         (lit "a+b%26c%2520")
  /\ is_ascii (lit "a+b%26c%2520")
  /\ replace_global (lit "%20") (lit "+") (lit "a+b%26c%2520") = lit "a+b%26c%2520".
Proof.
  apply (enc_alphabet (lit "a b&c%20")). reflexivity.
Defined.

(** ** When a submission throws *)

Lemma isWellFormed_app_l (a b : jsstring) :
  isWellFormed a = true -> isWellFormed (a ++ b) = isWellFormed b.
Proof.
  intros Ha. destruct (encodeURIComponent_Some a Ha) as (e & _ & He).
  apply (Encoded_app_wf b He).
Qed.

Lemma isWellFormed_cons (x : code_unit) (rest : jsstring) :
  isWellFormed (x :: rest)
  = if is_high_surrogate x then
      match rest with
      | d :: rest' => is_low_surrogate d && isWellFormed rest'
      | [] => false
      end
    else negb (is_low_surrogate x) && isWellFormed rest.
Proof. reflexivity. Qed.

(** A text cut before a unit that is no low surrogate is well formed when
    both parts are. *)
Lemma isWellFormed_app_cons (a : jsstring) (c : code_unit) (b : jsstring) :
  is_low_surrogate c = false ->
  isWellFormed (a ++ c :: b) = isWellFormed a && isWellFormed (c :: b).
Proof.
  intros Hc. induction a as [|x|x d s IH1 IH2] using string_pair_ind.
  - reflexivity.
  - change ([x] ++ c :: b) with (x :: c :: b).
    rewrite (isWellFormed_cons x (c :: b)), (isWellFormed_cons x []), Hc.
    destruct (is_high_surrogate x); [reflexivity|].
    change (isWellFormed []) with true. rewrite andb_true_r. reflexivity.
  - change ((x :: d :: s) ++ c :: b) with (x :: d :: (s ++ c :: b)).
    rewrite (isWellFormed_cons x (d :: s ++ c :: b)), (isWellFormed_cons x (d :: s)).
    destruct (is_high_surrogate x).
    + rewrite IH1, andb_assoc. reflexivity.
    + change (d :: s ++ c :: b) with ((d :: s) ++ c :: b).
      rewrite IH2, andb_assoc. reflexivity.
Qed.

Lemma isWellFormed_line (l x rest : jsstring) :
  isWellFormed l = true ->
  isWellFormed ((l ++ x ++ LF) ++ rest) = isWellFormed x && isWellFormed rest.
Proof.
  intros Hl. rewrite <- !app_assoc. rewrite (@isWellFormed_app_l l _ Hl).
  change (LF ++ rest) with (10%N :: rest).
  rewrite isWellFormed_app_cons by reflexivity.
  rewrite (isWellFormed_cons 10%N rest). reflexivity.
Qed.

(** The body of the mail is well formed exactly when the five fields are:
    the labels and the line feeds between the fields keep a trailing high
    surrogate of one field from pairing with the next field. *)
Lemma isWellFormed_mail_body (f : ContactForm) :
  message f <> [] -> isWellFormed (mail_body f) = form_well_formed f.
Proof.
  intros Hm. unfold form_well_formed, mail_body, mail_lines, filter_Boolean, if_truthy.
  destruct (message f) as [|m0 m] eqn:Em; [contradiction|].
  destruct (budget f) as [|b0 b] eqn:Eb; destruct (timeline f) as [|t0 t] eqn:Et;
    cbn [flat_map is_empty app join].
  - transitivity (isWellFormed ((lit "Name: " ++ name f ++ LF)
                                ++ (lit "Email: " ++ email f ++ LF) ++ m0 :: m)).
    + f_equal. cbn [lit list_ascii_of_string map app join is_empty].
      repeat (progress (cbn [app]; rewrite <- ?app_assoc)). reflexivity.
    + rewrite !isWellFormed_line by reflexivity.
      change (isWellFormed []) with true.
      rewrite ?andb_true_r, ?andb_assoc. reflexivity.
  - transitivity (isWellFormed ((lit "Name: " ++ name f ++ LF)
                                ++ (lit "Email: " ++ email f ++ LF)
                                ++ (lit "Timeline: " ++ (t0 :: t) ++ LF) ++ m0 :: m)).
    + f_equal. cbn [lit list_ascii_of_string map app join is_empty].
      repeat (progress (cbn [app]; rewrite <- ?app_assoc)). reflexivity.
    + rewrite !isWellFormed_line by reflexivity.
      change (isWellFormed []) with true.
      rewrite ?andb_true_r, ?andb_assoc. reflexivity.
  - transitivity (isWellFormed ((lit "Name: " ++ name f ++ LF)
                                ++ (lit "Email: " ++ email f ++ LF)
                                ++ (lit "Budget: " ++ (b0 :: b) ++ LF) ++ m0 :: m)).
    + f_equal. cbn [lit list_ascii_of_string map app join is_empty].
      repeat (progress (cbn [app]; rewrite <- ?app_assoc)). reflexivity.
    + rewrite !isWellFormed_line by reflexivity.
      change (isWellFormed []) with true.
      rewrite ?andb_true_r, ?andb_assoc. reflexivity.
  - transitivity (isWellFormed ((lit "Name: " ++ name f ++ LF)
                                ++ (lit "Email: " ++ email f ++ LF)
                                ++ (lit "Budget: " ++ (b0 :: b) ++ LF)
                                ++ (lit "Timeline: " ++ (t0 :: t) ++ LF) ++ m0 :: m)).
    + f_equal. cbn [lit list_ascii_of_string map app join is_empty].
      repeat (progress (cbn [app]; rewrite <- ?app_assoc)). reflexivity.
    + rewrite !isWellFormed_line by reflexivity.
      rewrite ?andb_assoc. reflexivity.
Qed.

Lemma buildMailto_None_iff (to subject body : jsstring) :
  buildMailto to subject body = None
  <-> isWellFormed subject = false \/ isWellFormed body = false.
Proof.
  unfold buildMailto. rewrite <- !enc_None_iff.
  destruct (enc subject), (enc body); split; intros H;
    try discriminate; try reflexivity; try (destruct H; discriminate);
    auto.
Qed.

(** The URIError of [encodeURIComponent] escapes from [onSubmit] exactly
    when the form passes the three guards and one of its five fields holds
    an unpaired surrogate; with well-formed fields a form that passes the
    guards always navigates. The optional fields count too: neither guard
    looks at them. *)
Theorem onSubmit_throws_iff (f : ContactForm) :
  (onSubmit f = ThrowsURIError <-> validate f = None /\ form_well_formed f = false)
  /\ ((exists href, onSubmit f = Navigate href)
      <-> validate f = None /\ form_well_formed f = true)
  /\ ((exists e, onSubmit f = ShowError e) <-> validate f <> None).
Proof.
  unfold onSubmit. destruct (validate f) as [e|] eqn:Hv.
  - split; [|split]; split; intros H;
      first [ solve [discriminate] | solve [destruct H; discriminate]
            | solve [eexists; reflexivity] ].
  - pose proof (isWellFormed_mail_body f (validate_None_message f Hv)) as Hb.
    pose proof (buildMailto_None_iff to_address (mail_subject f) (mail_body f)) as Hn.
    assert (Hs : isWellFormed (mail_subject f) = isWellFormed (name f))
      by (apply isWellFormed_app_l; reflexivity).
    rewrite Hs, Hb in Hn.
    assert (Hname : form_well_formed f = true -> isWellFormed (name f) = true).
    { unfold form_well_formed. intros H.
      repeat (apply andb_true_iff in H; destruct H as [H ?]). exact H. }
    destruct (buildMailto to_address (mail_subject f) (mail_body f)) as [href|] eqn:Eb.
    + assert (Hw : form_well_formed f = true).
      { destruct (form_well_formed f) eqn:Ew; [reflexivity|].
        lapply (proj2 Hn); [intros Hx; congruence|].
        right. first [reflexivity | exact Ew]. }
      split; [|split]; split; intros H;
        first [ solve [discriminate] | solve [destruct H; discriminate]
              | solve [destruct H; congruence] | solve [eexists; reflexivity]
              | solve [split; [reflexivity | assumption]]
              | solve [exfalso; apply H; reflexivity] ].
    + assert (Hw : form_well_formed f = false).
      { lapply (proj1 Hn); [|first [reflexivity | exact Eb]].
        intros [H|H]; [|exact H].
        destruct (form_well_formed f); [|reflexivity].
        rewrite Hname in H by reflexivity. discriminate. }
      split; [|split]; split; intros H;
        first [ solve [reflexivity] | solve [discriminate]
              | solve [destruct H; discriminate]
              | solve [destruct H; congruence]
              | solve [split; [reflexivity | assumption]]
              | solve [exfalso; apply H; reflexivity] ].
Qed.

(** An unpaired surrogate in the optional budget is enough. *)
Lemma onSubmit_throws_example :
  onSubmit {| name := lit "Ann"; email := lit "a@b.c"; budget := [55357%N];
              timeline := []; message := lit "Hello"; agree := true |}
  = ThrowsURIError.
Proof. vm_compute. reflexivity. Qed.

(** ** The address that passes the guards *)

Lemma trim_no_space (s : jsstring) :
  Forall (fun c => is_white_space c = false) s -> trim s = s.
Proof.
  assert (Hstart : forall t, Forall (fun c => is_white_space c = false) t ->
                             trimStart t = t).
  { intros t Ht. destruct Ht as [|c t Hc _]; [reflexivity|].
    cbn [trimStart]. rewrite Hc. reflexivity. }
  intros Hs. unfold trim, trimEnd. rewrite (Hstart s Hs).
  rewrite (Hstart (rev s)) by (apply Forall_rev; exact Hs).
  apply rev_involutive.
Qed.

Lemma plain_run_facts (s : jsstring) :
  plain_run s ->
  Forall (fun c => is_white_space c = false) s
  /\ count_occ N.eq_dec s (ch "@") = 0
  /\ 1 <= List.length s.
Proof.
  intros [Hne Hs].
  assert (Hc : forall c, not_space_or_at c = true ->
                         is_white_space c = false /\ c <> ch "@").
  { intros c H. unfold not_space_or_at in H.
    apply negb_true_iff, orb_false_iff in H. destruct H as [H1 H2].
    split; [exact H1 | apply N.eqb_neq; exact H2]. }
  split; [|split].
  - apply Forall_forall. intros c Hin. rewrite Forall_forall in Hs.
    apply Hc, Hs, Hin.
  - apply count_occ_not_In. intros Hin. rewrite Forall_forall in Hs.
    destruct (Hc _ (Hs _ Hin)) as [_ H]. apply H. reflexivity.
  - destruct s; [contradiction | simpl; lia].
Qed.

(** An address that passes the guards holds exactly one [@], no white
    space at all (so trimming it changes nothing, and it stays on the one
    line [Email: ...] of the mail), a [.] after the [@], and at least five
    code units. The name and the message are only known not to be blank. *)
Theorem validate_accepts_email (f : ContactForm) :
  validate f = None ->
  count_occ N.eq_dec (email f) (ch "@") = 1
  /\ Forall (fun c => is_white_space c = false) (email f)
  /\ trim (email f) = email f
  /\ 5 <= List.length (email f)
  /\ (exists l r, email f = l ++ ch "@" :: r /\ In (ch ".") r)
  /\ agree f = true.
Proof.
  intros H. unfold validate in H.
  destruct (is_empty (trim (name f)) || is_empty (trim (email f))
            || is_empty (trim (message f))); [discriminate|].
  destruct (regex_test email_re (email f)) eqn:Hre; [|discriminate].
  destruct (agree f); [|discriminate].
  apply email_re_shape in Hre.
  destruct Hre as (l & d & t & -> & Hl & Hd & Ht).
  apply plain_run_facts in Hl, Hd, Ht.
  destruct Hl as (Hl1 & Hl2 & Hl3), Hd as (Hd1 & Hd2 & Hd3), Ht as (Ht1 & Ht2 & Ht3).
  assert (Hws : Forall (fun c => is_white_space c = false)
                       (l ++ [ch "@"] ++ d ++ [ch "."] ++ t)).
  { repeat (apply Forall_app; split); try assumption;
      (apply Forall_cons; [reflexivity | apply Forall_nil]). }
  split; [|split; [|split; [|split; [|split]]]].
  - unfold code_unit in *. rewrite !count_occ_app, Hl2, Hd2, Ht2. reflexivity.
  - exact Hws.
  - apply trim_no_space. exact Hws.
  - rewrite !length_app. simpl. lia.
  - exists l, (d ++ [ch "."] ++ t). split; [reflexivity|].
    apply in_or_app. right. left. reflexivity.
  - reflexivity.
Qed.

Lemma validate_accepts_email_witness :
  count_occ N.eq_dec (lit "a@b.c") (ch "@") = 1
  /\ Forall (fun c => is_white_space c = false) (lit "a@b.c")
  /\ trim (lit "a@b.c") = lit "a@b.c"
  /\ 5 <= List.length (lit "a@b.c")
  /\ (exists l r, lit "a@b.c" = l ++ ch "@" :: r /\ In (ch ".") r)
  /\ true = true.
Proof.
  apply (validate_accepts_email
           {| name := lit "Ann"; email := lit "a@b.c"; budget := [];
              timeline := []; message := lit "Hello"; agree := true |}).
  reflexivity.
Defined.
